(** * Shared-memory frame queue of the YOLO producer

    A shallow embedding of the producer side of the bounded circular queue
    in [producer/test.cpp]: the size constants, the control block, the
    [write_frame] routine and the start-up code of [main], followed by the
    properties of the queue that the design document states.

    Modelling conventions.
    - An [int] is a [Z]; conversions to [int] are written [wrap32].  The
      object representation of a 4-byte scalar is little-endian (the
      program is a Windows x86/x64 program) and [sizeof(int)] is 4.
    - A [float] is represented by its 32-bit pattern: the program only
      copies floats with [memcpy], it never computes with them here.
    - The mapped view is a function from byte offsets (relative to the
      pointer [shm]) to bytes.  An access that leaves the [SHM_SIZE]
      bytes of the view, or a vector subscript that is out of range, has
      no defined behaviour and yields [Undefined].
    - The kernel objects (two semaphores and a mutex) are part of the
      state.  A wait that cannot be satisfied yields [Blocked]: the model
      runs the producer alone, so nobody would ever wake it up.
    - Every synchronisation call, memory access, vector subscript and
      console message is appended to a trace, in program order. *)

From Stdlib Require Import ZArith List Bool Lia Ascii.
Import ListNotations.
Open Scope Z_scope.

(** ** Configuration constants (test.cpp, lines 22-49) *)

Definition INPUT_WIDTH : Z := 640.
Definition INPUT_HEIGHT : Z := 640.
Definition CHANNELS : Z := 3.

Definition MAX_DETECTIONS : Z := 200.
Definition QUEUE_SIZE : Z := 5.

Definition sizeof_int : Z := 4.

Definition DET_RECORD_SIZE : Z := 24.

Definition SLOT_SIZE : Z :=
  5 * sizeof_int +
  MAX_DETECTIONS * DET_RECORD_SIZE +
  INPUT_WIDTH * INPUT_HEIGHT * CHANNELS.

Definition SHM_SIZE : Z :=
  3 * sizeof_int +
  QUEUE_SIZE * SLOT_SIZE.

(** Line 117: [shm + 3 * sizeof(int) + write_idx * SLOT_SIZE], as an offset
    from [shm]. *)
Definition slot_offset (write_idx : Z) : Z :=
  3 * sizeof_int + write_idx * SLOT_SIZE.

(** ** Scalars and their bytes *)

Definition byte := Z.

(** Conversion of an integer value to [int] (two's complement, 32 bits). *)
Definition wrap32 (v : Z) : Z := (v + 2147483648) mod 4294967296 - 2147483648.

Definition INT_MAX : Z := 2147483647.
Definition INT_MIN : Z := -2147483648.

(** Byte [k] of the object representation of a 4-byte scalar. *)
Definition int_byte (v : Z) (k : Z) : byte := (v / 2 ^ (8 * k)) mod 256.

(** The [int] whose object representation is [b0 b1 b2 b3]. *)
Definition int_of_bytes (b0 b1 b2 b3 : byte) : Z :=
  wrap32 (b0 + 256 * b1 + 65536 * b2 + 16777216 * b3).

(** A [float], by its bit pattern. *)
Abbreviation float32 := Z (only parsing).

(** ** Values handed over by the detection pipeline *)

(** [cv::Rect]. *)
Record Rect := mkRect { x : Z; y : Z; width : Z; height : Z }.

(** [cv::Mat], continuous: geometry, element size in bytes, and the bytes
    behind [data], by offset.  A matrix that exists in memory has fewer
    than 2^64 bytes, so the [size_t] product [total() * elemSize()] is
    exact. *)
Record Mat := mkMat { rows : Z; cols : Z; elemSize : Z; data : Z -> byte }.

Definition total (f : Mat) : Z := rows f * cols f.

(** [std::vector<T>::size()]. *)
Definition size {A : Type} (v : list A) : Z := Z.of_nat (length v).

(** ** The shared state *)

Definition mem := Z -> byte.

(** The bytes [p, p+n) are replaced by [src 0 .. src (n-1)]. *)
Definition mem_write (m : mem) (p n : Z) (src : Z -> byte) : mem :=
  fun a => if (p <=? a) && (a <? p + n) then src (a - p) else m a.

Inductive handle := semEmptyH | semFullH | mutexH.

Inductive vec := v_class_ids | v_confs | v_boxes.

Inductive event :=
| EvWait (h : handle)
| EvRelease (h : handle)
| EvLoad (addr len : Z)
| EvStore (addr len : Z)
| EvIndex (v : vec) (i : Z)
| EvCout (frame_id num : Z)
| EvCerr.

(** A Windows mutex is recursive: the owner may wait on it again. *)
Inductive mutex_state :=
| Unowned
| OwnedByProducer (extra : nat)
| OwnedByOther.

Record world := mkWorld {
  shm : mem;
  semEmpty : Z;
  semFull : Z;
  mutex : mutex_state;
  trace : list event
}.

Definition log (e : event) (w : world) : world :=
  mkWorld (shm w) (semEmpty w) (semFull w) (mutex w) (trace w ++ [e]).

Definition set_shm (m : mem) (w : world) : world :=
  mkWorld m (semEmpty w) (semFull w) (mutex w) (trace w).

Definition set_semEmpty (c : Z) (w : world) : world :=
  mkWorld (shm w) c (semFull w) (mutex w) (trace w).

Definition set_semFull (c : Z) (w : world) : world :=
  mkWorld (shm w) (semEmpty w) c (mutex w) (trace w).

Definition set_mutex (s : mutex_state) (w : world) : world :=
  mkWorld (shm w) (semEmpty w) (semFull w) s (trace w).

(** ** A state monad with blocking and undefined behaviour *)

Inductive outcome (A : Type) :=
| Ok (a : A) (w : world)
| Blocked
| Undefined.

Arguments Ok {A} a w.
Arguments Blocked {A}.
Arguments Undefined {A}.

Definition M (A : Type) := world -> outcome A.

Definition ret {A : Type} (a : A) : M A := fun w => Ok a w.

Definition bind {A B : Type} (m : M A) (f : A -> M B) : M B :=
  fun w =>
    match m w with
    | Ok a w' => f a w'
    | Blocked => Blocked
    | Undefined => Undefined
    end.

Declare Scope prog_scope.
Delimit Scope prog_scope with prog.
Notation "x <- m ;; k" := (bind m (fun x => k))
  (at level 61, m at next level, right associativity) : prog_scope.
Notation "m ;; k" := (bind m (fun _ => k))
  (at level 61, right associativity) : prog_scope.
Local Open Scope prog_scope.

(** ** Primitive operations *)

(** [WaitForSingleObject(h, INFINITE)]. *)
Definition WaitForSingleObject (h : handle) : M unit :=
  fun w =>
    match h with
    | semEmptyH =>
        if 0 <? semEmpty w
        then Ok tt (log (EvWait h) (set_semEmpty (semEmpty w - 1) w))
        else Blocked
    | semFullH =>
        if 0 <? semFull w
        then Ok tt (log (EvWait h) (set_semFull (semFull w - 1) w))
        else Blocked
    | mutexH =>
        match mutex w with
        | Unowned => Ok tt (log (EvWait h) (set_mutex (OwnedByProducer 0) w))
        | OwnedByProducer n =>
            Ok tt (log (EvWait h) (set_mutex (OwnedByProducer (S n)) w))
        | OwnedByOther => Blocked
        end
    end.

(** [ReleaseMutex(mutex)]; it fails, and changes nothing, when the caller
    is not the owner.  The program ignores the result. *)
Definition ReleaseMutex : M unit :=
  fun w =>
    match mutex w with
    | OwnedByProducer O => Ok tt (log (EvRelease mutexH) (set_mutex Unowned w))
    | OwnedByProducer (S n) =>
        Ok tt (log (EvRelease mutexH) (set_mutex (OwnedByProducer n) w))
    | _ => Ok tt (log (EvRelease mutexH) w)
    end.

(** [ReleaseSemaphore(h, 1, nullptr)]; both semaphores were created with
    maximum count [QUEUE_SIZE], and a release beyond the maximum fails and
    changes nothing.  The program ignores the result. *)
Definition ReleaseSemaphore (h : handle) : M unit :=
  fun w =>
    match h with
    | semEmptyH =>
        if semEmpty w + 1 <=? QUEUE_SIZE
        then Ok tt (log (EvRelease h) (set_semEmpty (semEmpty w + 1) w))
        else Ok tt (log (EvRelease h) w)
    | semFullH =>
        if semFull w + 1 <=? QUEUE_SIZE
        then Ok tt (log (EvRelease h) (set_semFull (semFull w + 1) w))
        else Ok tt (log (EvRelease h) w)
    | mutexH => Ok tt (log (EvRelease h) w)
    end.

(** The [n] bytes at offset [p] lie inside the mapped view. *)
Definition in_view (p n : Z) : bool := (0 <=? p) && (p + n <=? SHM_SIZE).

(** [memcpy(shm + p, src, n)]. *)
Definition memcpy (p : Z) (src : Z -> byte) (n : Z) : M unit :=
  fun w =>
    if in_view p n
    then Ok tt (log (EvStore p n) (set_shm (mem_write (shm w) p n src) w))
    else Undefined.

(** [memset(shm + p, c, n)]. *)
Definition memset (p : Z) (c : byte) (n : Z) : M unit :=
  memcpy p (fun _ => c) n.

(** Reading the [int] at offset [p] of the view. *)
Definition load_int (p : Z) : M Z :=
  fun w =>
    if in_view p 4
    then Ok (int_of_bytes (shm w p) (shm w (p + 1)) (shm w (p + 2)) (shm w (p + 3)))
            (log (EvLoad p 4) w)
    else Undefined.

(** Writing the [int] [v] at offset [p] of the view. *)
Definition store_int (p : Z) (v : Z) : M unit := memcpy p (int_byte v) 4.

(** [v[i]] on a [std::vector]. *)
Definition at_ {A : Type} (name : vec) (v : list A) (i : Z) : M A :=
  fun w =>
    if 0 <=? i
    then match nth_error v (Z.to_nat i) with
         | Some a => Ok a (log (EvIndex name i) w)
         | None => Undefined
         end
    else Undefined.

Definition emit (e : event) : M unit := fun w => Ok tt (log e w).

(** [for (int i = lo; i < hi; i++) p = body i p]. *)
Fixpoint for_iter (n : nat) (i : Z) (body : Z -> Z -> M Z) (p : Z) : M Z :=
  match n with
  | O => ret p
  | S n' => p' <- body i p ;; for_iter n' (i + 1) body p'
  end.

Definition for_loop (lo hi : Z) (body : Z -> Z -> M Z) (p : Z) : M Z :=
  for_iter (Z.to_nat (hi - lo)) lo body p.

(** ** [write_frame] (test.cpp, lines 100-165) *)

(** Lines 132-143, one iteration of the detection loop; returns the
    advanced write pointer. *)
Definition write_detection
    (class_ids : list Z) (confs : list float32) (boxes : list Rect)
    (num : Z) (i : Z) (p : Z) : M Z :=
  if i <? num then
    c <- at_ v_class_ids class_ids i ;;
    memcpy p (int_byte c) 4 ;;
    let p := p + 4 in
    f <- at_ v_confs confs i ;;
    memcpy p (int_byte f) 4 ;;
    let p := p + 4 in
    b <- at_ v_boxes boxes i ;;
    memcpy p (int_byte (x b)) 4 ;;
    let p := p + 4 in
    b <- at_ v_boxes boxes i ;;
    memcpy p (int_byte (y b)) 4 ;;
    let p := p + 4 in
    b <- at_ v_boxes boxes i ;;
    memcpy p (int_byte (width b)) 4 ;;
    let p := p + 4 in
    b <- at_ v_boxes boxes i ;;
    memcpy p (int_byte (height b)) 4 ;;
    let p := p + 4 in
    ret p
  else
    memset p 0 24 ;;
    ret (p + 24).

(** Lines 120-121. *)
Definition clamp_num (boxes : list Rect) : Z :=
  let num := wrap32 (size boxes) in
  if num >? MAX_DETECTIONS then MAX_DETECTIONS else num.

Definition write_frame
    (frame_id : Z) (frame640 : Mat)
    (class_ids : list Z) (confs : list float32) (boxes : list Rect)
    : M unit :=
  WaitForSingleObject semEmptyH ;;
  WaitForSingleObject mutexH ;;
  write_idx <- load_int (0 * sizeof_int) ;;
  let slot := slot_offset write_idx in
  let p := slot in
  let num := clamp_num boxes in
  (* Header *)
  memcpy p (int_byte frame_id) 4 ;;
  let p := p + 4 in
  memcpy p (int_byte INPUT_WIDTH) 4 ;;
  let p := p + 4 in
  memcpy p (int_byte INPUT_HEIGHT) 4 ;;
  let p := p + 4 in
  memcpy p (int_byte CHANNELS) 4 ;;
  let p := p + 4 in
  memcpy p (int_byte num) 4 ;;
  let p := p + 4 in
  (* Detections *)
  p <- for_loop 0 MAX_DETECTIONS (write_detection class_ids confs boxes num) p ;;
  (* Image *)
  let image_size := INPUT_WIDTH * INPUT_HEIGHT * CHANNELS in
  (if total frame640 * elemSize frame640 =? image_size
   then memcpy p (data frame640) image_size
   else emit EvCerr ;; memset p 0 image_size) ;;
  (* Advance queue *)
  store_int (0 * sizeof_int) (Z.rem (wrap32 (write_idx + 1)) QUEUE_SIZE) ;;
  count <- load_int (2 * sizeof_int) ;;
  store_int (2 * sizeof_int) (wrap32 (count + 1)) ;;
  emit (EvCout frame_id num) ;;
  ReleaseMutex ;;
  ReleaseSemaphore semFullH.

(** ** Start-up code of [main] (test.cpp, lines 177-205) *)

(** What the named kernel objects look like when the producer starts:
    the mapping cannot be created, no object of these names exists yet,
    or they all exist already, in some state [w].  [CreateFileMapping],
    [CreateSemaphore] and [CreateMutex] open the existing object when the
    name is taken and ignore the initial values they are given. *)
Inductive system :=
| CannotMap
| NoObjects
| Objects (w : world).

(** Lines 178-199.  [None] stands for [return -1].  A fresh page-file
    backed mapping is zero-filled. *)
Definition create_objects (s : system) : option world :=
  match s with
  | CannotMap => None
  | NoObjects => Some (mkWorld (fun _ => 0) QUEUE_SIZE 0 Unowned [])
  | Objects w => Some w
  end.

(** Lines 202-205. *)
Definition init_control_block : M unit :=
  store_int (0 * sizeof_int) 0 ;;
  store_int (1 * sizeof_int) 0 ;;
  store_int (2 * sizeof_int) 0.

Definition main_startup (s : system) : option (outcome unit) :=
  match create_objects s with
  | None => None
  | Some w => Some (init_control_block w)
  end.

(** ** Sequences of enqueue calls *)

Record call := mkCall {
  frame_id : Z;
  frame640 : Mat;
  class_ids : list Z;
  confs : list float32;
  boxes : list Rect
}.

Definition enqueue (c : call) : M unit :=
  write_frame (frame_id c) (frame640 c) (class_ids c) (confs c) (boxes c).

Fixpoint enqueue_all (cs : list call) : M unit :=
  match cs with
  | [] => ret tt
  | c :: rest => enqueue c ;; enqueue_all rest
  end.

(** ** Reading the shared region *)

(** [ctrl[k]]. *)
Definition ctrl (w : world) (k : Z) : Z :=
  let p := k * sizeof_int in
  int_of_bytes (shm w p) (shm w (p + 1)) (shm w (p + 2)) (shm w (p + 3)).

Definition write_index (w : world) : Z := ctrl w 0.
Definition read_index (w : world) : Z := ctrl w 1.
Definition total_written (w : world) : Z := ctrl w 2.

(** The [n] bytes of the view that start at offset [p]. *)
Definition load_bytes (m : mem) (p : Z) (n : nat) : list byte :=
  map (fun k => m (p + Z.of_nat k)) (seq 0 n).

(** ** The record layout, as the design document words it *)

Definition encode_int (v : Z) : list byte :=
  [int_byte v 0; int_byte v 1; int_byte v 2; int_byte v 3].

(** Header: frame id, image width, height, channel count, detection count. *)
Definition encode_header (id count : Z) : list byte :=
  encode_int id ++ encode_int INPUT_WIDTH ++ encode_int INPUT_HEIGHT ++
  encode_int CHANNELS ++ encode_int count.

(** Detection record: class id, confidence, x, y, width, height. *)
Definition encode_detection (d : Z * (float32 * Rect)) : list byte :=
  let '(c, (f, b)) := d in
  encode_int c ++ encode_int f ++
  encode_int (x b) ++ encode_int (y b) ++
  encode_int (width b) ++ encode_int (height b).

Definition zero_record : list byte := repeat 0 24.

(** The detections that are kept: the first [MAX_DETECTIONS] triples, in
    input order. *)
Definition stored_detections (c : call) : list (Z * (float32 * Rect)) :=
  firstn (Z.to_nat MAX_DETECTIONS)
    (combine (class_ids c) (combine (confs c) (boxes c))).

Definition stored_count (c : call) : Z := size (stored_detections c).

(** The fixed-length detection array: the kept records followed by zeroed
    records up to [MAX_DETECTIONS]. *)
Definition encode_detections (c : call) : list byte :=
  flat_map encode_detection (stored_detections c) ++
  concat (repeat zero_record
            (Z.to_nat MAX_DETECTIONS - length (stored_detections c))).

Definition HEADER_SIZE : Z := 5 * sizeof_int.
Definition DETECTIONS_SIZE : Z := MAX_DETECTIONS * DET_RECORD_SIZE.
Definition IMAGE_SIZE : Z := INPUT_WIDTH * INPUT_HEIGHT * CHANNELS.

(** ** Preconditions of an enqueue *)

(** An empty slot is available, nobody else holds the mutex and the write
    index obeys the control-block invariant. *)
Definition ready (w : world) : Prop :=
  0 < semEmpty w /\ mutex w = Unowned /\ 0 <= write_index w < QUEUE_SIZE.

(** The three vectors are parallel. *)
Definition parallel (c : call) : Prop :=
  length (class_ids c) = length (boxes c) /\
  length (confs c) = length (boxes c).

(** The state the start-up code leaves behind on a system without objects. *)
Definition initialised (w : world) : Prop :=
  write_index w = 0 /\ semEmpty w = QUEUE_SIZE /\ mutex w = Unowned.


(** ** Reasoning about programs *)

(** [exec m w Q]: run in [w], the program [m] returns (it neither blocks
    nor leaves defined behaviour) and its result and final state satisfy
    [Q]. *)
Definition exec {A : Type} (m : M A) (w : world) (Q : A -> world -> Prop) : Prop :=
  match m w with
  | Ok a w' => Q a w'
  | Blocked => False
  | Undefined => False
  end.

(** ** What one enqueue leaves in the slot *)

(** Lines 120-121 again, on a call. *)
Definition num_of (c : call) : Z := clamp_num (boxes c).

(** The five header words written by lines 124-128. *)
Definition header_field (c : call) (f : Z) : Z :=
  match f with
  | 0 => frame_id c
  | 1 => INPUT_WIDTH
  | 2 => INPUT_HEIGHT
  | 3 => CHANNELS
  | _ => num_of c
  end.

(** The six words of record [k] written by lines 132-143. *)
Definition record_field (c : call) (k f : Z) : Z :=
  if k <? num_of c then
    let b := nth (Z.to_nat k) (boxes c) (mkRect 0 0 0 0) in
    match f with
    | 0 => nth (Z.to_nat k) (class_ids c) 0
    | 1 => nth (Z.to_nat k) (confs c) 0
    | 2 => x b
    | 3 => y b
    | 4 => width b
    | _ => height b
    end
  else 0.

(** Lines 147-155: the test on the image size, and byte [j] of the image
    region. *)
Definition image_matches (c : call) : bool :=
  total (frame640 c) * elemSize (frame640 c) =? IMAGE_SIZE.

Definition image_byte (c : call) (j : Z) : byte :=
  if image_matches c then data (frame640 c) j else 0.

(** The events an enqueue may produce while it holds the mutex, for a
    call [c] that targets the slot at offset [slot]. *)
Definition body_event (c : call) (slot : Z) (e : event) : Prop :=
  match e with
  | EvWait _ => False
  | EvRelease _ => False
  | EvLoad a n => (a = 0 \/ a = 8) /\ n = 4
  | EvStore a n =>
      (slot <= a /\ 0 <= n /\ a + n <= slot + SLOT_SIZE) \/
      (a = 0 /\ n = 4) \/ (a = 8 /\ n = 4)
  | EvIndex v i =>
      0 <= i < Z.min (size (boxes c)) MAX_DETECTIONS /\
      i < match v with
          | v_class_ids => size (class_ids c)
          | v_confs => size (confs c)
          | v_boxes => size (boxes c)
          end
  | EvCout id num => id = frame_id c /\ num = num_of c
  | EvCerr => image_matches c = false
  end.

(** Lines 114-128: the read of [ctrl[0]] and the five header stores. *)
Definition header_events (slot : Z) : list event :=
  [EvLoad 0 4; EvStore slot 4; EvStore (slot + 4) 4; EvStore (slot + 8) 4;
   EvStore (slot + 12) 4; EvStore (slot + 16) 4].

(** Lines 158-161: the update of [ctrl[0]] and [ctrl[2]], and the message. *)
Definition advance_events (c : call) : list event :=
  [EvStore 0 4; EvLoad 8 4; EvStore 8 4; EvCout (frame_id c) (num_of c)].

(** The state [w'] that one completed enqueue of [c] makes of [w]. *)
Record enqueued (c : call) (w w' : world) : Prop := mkEnqueued {
  enq_semEmpty : semEmpty w' = semEmpty w - 1;
  enq_semFull :
    semFull w' = if semFull w + 1 <=? QUEUE_SIZE then semFull w + 1 else semFull w;
  enq_mutex : mutex w' = Unowned;
  enq_header : forall f j, 0 <= f < 5 -> 0 <= j < 4 ->
    shm w' (slot_offset (write_index w) + 4 * f + j) = int_byte (header_field c f) j;
  enq_records : forall k f j, 0 <= k < MAX_DETECTIONS -> 0 <= f < 6 -> 0 <= j < 4 ->
    shm w' (slot_offset (write_index w) + HEADER_SIZE + DET_RECORD_SIZE * k + 4 * f + j)
    = int_byte (record_field c k f) j;
  enq_image : forall j, 0 <= j < IMAGE_SIZE ->
    shm w' (slot_offset (write_index w) + HEADER_SIZE + DETECTIONS_SIZE + j)
    = image_byte c j;
  enq_write_index : write_index w' = Z.rem (write_index w + 1) QUEUE_SIZE;
  enq_total_written : total_written w' = wrap32 (total_written w + 1);
  enq_frame : forall a,
    ~ (slot_offset (write_index w) <= a < slot_offset (write_index w) + SLOT_SIZE) ->
    ~ (0 <= a < 4) -> ~ (8 <= a < 12) ->
    shm w' a = shm w a;
  enq_events : exists mid,
    trace w' = trace w ++ EvWait semEmptyH :: EvWait mutexH ::
                 (header_events (slot_offset (write_index w)) ++ mid
                    ++ advance_events c)
                 ++ [EvRelease mutexH; EvRelease semFullH] /\
    Forall (body_event c (slot_offset (write_index w))) mid
}.

(** One iteration of the detection loop, for record [i] at offset [p]. *)
Record record_written (c : call) (slot i p : Z) (w w' : world) : Prop := mkRecordWritten {
  rw_semEmpty : semEmpty w' = semEmpty w;
  rw_semFull : semFull w' = semFull w;
  rw_mutex : mutex w' = mutex w;
  rw_fields : forall f j, 0 <= f < 6 -> 0 <= j < 4 ->
    shm w' (p + 4 * f + j) = int_byte (record_field c i f) j;
  rw_frame : forall a, ~ (p <= a < p + DET_RECORD_SIZE) -> shm w' a = shm w a;
  rw_trace : exists t,
    trace w' = trace w ++ t /\ Forall (body_event c slot) t
}.

(** The detection loop from record [i] on, [n] records, starting at [p]. *)
Record records_written (c : call) (slot i n p : Z) (w w' : world) : Prop := mkRecordsWritten {
  rs_semEmpty : semEmpty w' = semEmpty w;
  rs_semFull : semFull w' = semFull w;
  rs_mutex : mutex w' = mutex w;
  rs_fields : forall k f j, 0 <= k < n -> 0 <= f < 6 -> 0 <= j < 4 ->
    shm w' (p + DET_RECORD_SIZE * k + 4 * f + j) = int_byte (record_field c (i + k) f) j;
  rs_frame : forall a, ~ (p <= a < p + DET_RECORD_SIZE * n) -> shm w' a = shm w a;
  rs_trace : exists t,
    trace w' = trace w ++ t /\ Forall (body_event c slot) t
}.

(** Lines 147-155: the image region, written at offset [p]. *)
Record image_written (c : call) (slot p : Z) (w w' : world) : Prop := mkImageWritten {
  iw_semEmpty : semEmpty w' = semEmpty w;
  iw_semFull : semFull w' = semFull w;
  iw_mutex : mutex w' = mutex w;
  iw_bytes : forall j, 0 <= j < IMAGE_SIZE -> shm w' (p + j) = image_byte c j;
  iw_frame : forall a, ~ (p <= a < p + IMAGE_SIZE) -> shm w' a = shm w a;
  iw_trace : exists t,
    trace w' = trace w ++ t /\ Forall (body_event c slot) t
}.

(** ** Whole slots and whole call sequences *)

(** The 24 bytes that lines 132-143 write for record [k]. *)
Definition record_bytes (c : call) (k : Z) : list byte :=
  encode_int (record_field c k 0) ++ encode_int (record_field c k 1) ++
  encode_int (record_field c k 2) ++ encode_int (record_field c k 3) ++
  encode_int (record_field c k 4) ++ encode_int (record_field c k 5).

(** The slot at offset [slot] of [m] holds the frame of call [c]. *)
Record slot_holds (c : call) (m : mem) (slot : Z) : Prop := mkSlotHolds {
  sh_header : forall f j, 0 <= f < 5 -> 0 <= j < 4 ->
    m (slot + 4 * f + j) = int_byte (header_field c f) j;
  sh_records : forall k f j, 0 <= k < MAX_DETECTIONS -> 0 <= f < 6 -> 0 <= j < 4 ->
    m (slot + HEADER_SIZE + DET_RECORD_SIZE * k + 4 * f + j)
    = int_byte (record_field c k f) j;
  sh_image : forall j, 0 <= j < IMAGE_SIZE ->
    m (slot + HEADER_SIZE + DETECTIONS_SIZE + j) = image_byte c j
}.

(** The vectors are parallel and their size is representable as [int]. *)
Definition well_formed (c : call) : Prop :=
  parallel c /\ size (boxes c) <= INT_MAX.

(** Calls on the kernel objects. *)
Definition is_sync (e : event) : bool :=
  match e with
  | EvWait _ => true
  | EvRelease _ => true
  | _ => false
  end.

(** Accesses to the shared region. *)
Definition is_store (e : event) : bool :=
  match e with
  | EvStore _ _ => true
  | _ => false
  end.

(** The state after [cs] was enqueued into [w], starting at slot [s]. *)
Record enqueued_all (cs : list call) (s : Z) (w w' : world) : Prop := mkEnqueuedAll {
  ea_write_index : write_index w' = (s + size cs) mod QUEUE_SIZE;
  ea_semEmpty : semEmpty w' = semEmpty w - size cs;
  ea_mutex : mutex w' = Unowned;
  ea_slots : forall i c, nth_error cs i = Some c ->
    slot_holds c (shm w') (slot_offset (s + Z.of_nat i));
  ea_frame : forall a,
    ~ (slot_offset s <= a < slot_offset (s + size cs)) ->
    ~ (0 <= a < 4) -> ~ (8 <= a < 12) ->
    shm w' a = shm w a
}.

(** The detection array record by record. *)
Definition detection_array (c : call) : list (list byte) :=
  map encode_detection (stored_detections c) ++
  repeat zero_record (Z.to_nat MAX_DETECTIONS - length (stored_detections c)).

Definition no_detection : Z * (float32 * Rect) := (0, (0, mkRect 0 0 0 0)).

(** The size of the vector a subscript event refers to. *)
Definition vec_size (c : call) (v : vec) : Z :=
  match v with
  | v_class_ids => size (class_ids c)
  | v_confs => size (confs c)
  | v_boxes => size (boxes c)
  end.

(** The triples the pipeline hands over, zipped. *)
Definition detections (c : call) : list (Z * (float32 * Rect)) :=
  combine (class_ids c) (combine (confs c) (boxes c)).

(** ** Concrete states *)

(** The state right after the start-up code on a system without objects. *)
Definition fresh_world : world :=
  mkWorld (fun _ => 0) QUEUE_SIZE 0 Unowned [].

(** A region in use: two frames were written and one was read, so the
    control block is [{write_index:2, read_index:1, total_written:2}]. *)
Definition busy_world : world :=
  mkWorld (fun a => if a =? 0 then 2
                    else if a =? 4 then 1
                    else if a =? 8 then 2
                    else 0)
          4 1 Unowned [].

(** ** Concrete calls *)

(** A 640x640 BGR image filled with the letterbox gray. *)
Definition gray_image : Mat := mkMat 640 640 3 (fun _ => 114).

(** A 2x2 BGR image: not the size the slot expects. *)
Definition small_image : Mat := mkMat 2 2 3 (fun _ => 255).

(** The scenario of the design document: frame 1, detections
    [(3, 0.91, 10,20,30,40)] and [(7, 0.5, 0,0,5,5)], gray image.  The
    confidences are the bit patterns of [0.91f] and [0.5f]. *)
Definition scenario_call : call :=
  mkCall 1 gray_image [3; 7] [1063843267; 1056964608]
    [mkRect 10 20 30 40; mkRect 0 0 5 5].

(** 201 detections, one more than a slot can take. *)
Definition crowded_call : call :=
  mkCall 2 gray_image (repeat 1 201) (repeat 1056964608 201)
    (repeat (mkRect 0 0 5 5) 201).

(** One detection and an image of the wrong size. *)
Definition small_image_call : call :=
  mkCall 3 small_image [3] [1056964608] [mkRect 1 2 3 4].

Definition three_calls : list call :=
  [scenario_call; crowded_call; small_image_call].

(** * Beyond a single pass over the slots *)

(** The state after [cs] was enqueued into [w], the slots being taken
    cyclically from the write index of [w]. *)
Record enqueued_cyclic (cs : list call) (w w' : world) : Prop := mkEnqueuedCyclic {
  ec_write_index : write_index w' = (write_index w + size cs) mod QUEUE_SIZE;
  ec_total_written : total_written w' = wrap32 (total_written w + size cs);
  ec_semEmpty : semEmpty w' = semEmpty w - size cs;
  ec_semFull : semEmpty w + semFull w = QUEUE_SIZE -> semFull w' = semFull w + size cs;
  ec_mutex : mutex w' = Unowned;
  ec_slots : forall i c, nth_error cs i = Some c ->
    slot_holds c (shm w') (slot_offset ((write_index w + Z.of_nat i) mod QUEUE_SIZE));
  ec_frame : forall a,
    (forall i, 0 <= i < size cs ->
       ~ (slot_offset ((write_index w + i) mod QUEUE_SIZE) <= a
          < slot_offset ((write_index w + i) mod QUEUE_SIZE) + SLOT_SIZE)) ->
    ~ (0 <= a < 4) -> ~ (8 <= a < 12) ->
    shm w' a = shm w a
}.

(** What the two processes rely on between calls: the write index is a
    slot number, nobody holds the mutex, and the two semaphores share out
    the [QUEUE_SIZE] slots. *)
Definition queue_inv (w : world) : Prop :=
  0 <= write_index w < QUEUE_SIZE /\
  mutex w = Unowned /\
  0 <= semEmpty w /\ 0 <= semFull w /\
  semEmpty w + semFull w = QUEUE_SIZE.

(** A region whose producer is about to wrap around: write index 4, all
    slots free. *)
Definition late_world : world :=
  mkWorld (fun a => if a =? 0 then 4
                    else if a =? 4 then 4
                    else if a =? 8 then 9
                    else 0)
          QUEUE_SIZE 0 Unowned [].

(** * The rest of [main] *)

(** ** Class names (test.cpp, lines 68-75 and 170-174) *)

Definition newline : ascii := "010"%char.

(** The characters [std::getline] extracts from a stream that is not at
    its end: everything up to the next newline, which is consumed but not
    stored, or everything that is left.  Returns the line and the rest of
    the stream. *)
Fixpoint take_line (stream : list ascii) : list ascii * list ascii :=
  match stream with
  | [] => ([], [])
  | ch :: rest =>
      if Ascii.eqb ch newline then ([], rest)
      else let (line, rest') := take_line rest in (ch :: line, rest')
  end.

(** [std::getline(ifs, line)]; [None] when the stream is in a failed
    state afterwards, which is the case exactly when no character could be
    extracted. *)
Definition getline (stream : list ascii) : option (list ascii * list ascii) :=
  match stream with
  | [] => None
  | _ :: _ => Some (take_line stream)
  end.

(** Lines 72-73: [while (std::getline(ifs, line)) classes.push_back(line)].
    Every successful [getline] shortens the stream, so [fuel] above the
    length of the stream is never used up. *)
Fixpoint getline_loop (fuel : nat) (stream : list ascii)
    (classes : list (list ascii)) : list (list ascii) :=
  match fuel with
  | O => classes
  | S fuel' =>
      match getline stream with
      | None => classes
      | Some (line, rest) => getline_loop fuel' rest (classes ++ [line])
      end
  end.

(** [load_classes(path)], on the content of the file at [path]; [None]
    when the file cannot be opened, and then every read fails. *)
Definition load_classes (file : option (list ascii)) : list (list ascii) :=
  match file with
  | None => []
  | Some content => getline_loop (S (length content)) content []
  end.

(** Lines 170-205: [main] up to the initialisation of the control block.
    [None] stands for [return -1]. *)
Definition main_until_init (file : option (list ascii)) (s : system)
    : option (outcome unit) :=
  let class_names := load_classes file in
  match class_names with
  | [] => None
  | _ :: _ => main_startup s
  end.

(** The lines of a text, each closed by a newline. *)
Definition unlines (ls : list (list ascii)) : list ascii :=
  flat_map (fun l => l ++ [newline]) ls.

(** ** The frame loop (test.cpp, lines 251-395) *)

(** Lines 326-329: a candidate box, clipped to the video frame. *)
Definition clip_to_frame (frame_width frame_height : Z)
    (left top width height : Z) : Rect :=
  let left := Z.max 0 (Z.min left (wrap32 (frame_width - 1))) in
  let top := Z.max 0 (Z.min top (wrap32 (frame_height - 1))) in
  let width := Z.max 1 (Z.min width (wrap32 (frame_width - left))) in
  let height := Z.max 1 (Z.min height (wrap32 (frame_height - top))) in
  mkRect left top width height.

(** What inference and non-maximum suppression hand over for one frame:
    the frame resized to 640x640, the three candidate vectors and the
    indices [cv::dnn::NMSBoxes] selected. *)
Record frame_result := mkFrameResult {
  resized : Mat;
  all_class_ids : list Z;
  confidences : list float32;
  all_boxes : list Rect;
  indices : list Z
}.

(** [v[i]] for an [int] [i]: the subscript is converted to [size_t], so a
    negative one is out of range too. *)
Definition subscript {A : Type} (v : list A) (i : Z) : option A :=
  if 0 <=? i then nth_error v (Z.to_nat i) else None.

(** Lines 349-357: the candidates the suppression kept, in the order of
    [indices]; [None] when a subscript is out of range. *)
Fixpoint keep_indices (r : frame_result) (todo : list Z)
    (filtered : list Z * list float32 * list Rect)
    : option (list Z * list float32 * list Rect) :=
  match todo with
  | [] => Some filtered
  | i :: rest =>
      match subscript (all_class_ids r) i,
            subscript (confidences r) i,
            subscript (all_boxes r) i with
      | Some c, Some f, Some b =>
          let '(filtered_class_ids, filtered_confidences, filtered_boxes) := filtered in
          keep_indices r rest
            (filtered_class_ids ++ [c], filtered_confidences ++ [f],
             filtered_boxes ++ [b])
      | _, _, _ => None
      end
  end.

Section FrameLoop.

(** [static_cast<int>(v * scale_x)] and [static_cast<int>(v * scale_y)]
    for an [int] [v]: the two factors are floats fixed for the whole
    video, and all that matters here is that the results are [int]s. *)
Variable to_int_x : Z -> Z.
Variable to_int_y : Z -> Z.

(** Lines 376-387: a box scaled to the 640x640 image and clipped. *)
Definition scale_box (box : Rect) : Rect :=
  let x := to_int_x (x box) in
  let y := to_int_y (y box) in
  let width := to_int_x (width box) in
  let height := to_int_y (height box) in
  let x := Z.max 0 (Z.min x (INPUT_WIDTH - 1)) in
  let y := Z.max 0 (Z.min y (INPUT_HEIGHT - 1)) in
  let width := Z.max 1 (Z.min width (INPUT_WIDTH - x)) in
  let height := Z.max 1 (Z.min height (INPUT_HEIGHT - y)) in
  mkRect x y width height.

(** Lines 371-388. *)
Fixpoint scale_boxes (filtered_boxes : list Rect) (scaled_boxes : list Rect)
    : list Rect :=
  match filtered_boxes with
  | [] => scaled_boxes
  | box :: rest => scale_boxes rest (scaled_boxes ++ [scale_box box])
  end.

(** Lines 349-394, from the suppression to the call of [write_frame].
    The console lines of 360-368 are not traced. *)
Definition send_frame (frame_id : Z) (r : frame_result) : M unit :=
  match keep_indices r (indices r) ([], [], []) with
  | None => fun _ => Undefined
  | Some (filtered_class_ids, filtered_confidences, filtered_boxes) =>
      write_frame frame_id (resized r)
        filtered_class_ids filtered_confidences
        (scale_boxes filtered_boxes [])
  end.

(** Lines 249-395: [frame_id] counts the frames read so far. *)
Fixpoint video_loop (frames : list frame_result) (frame_id : Z) : M Z :=
  match frames with
  | [] => ret frame_id
  | r :: rest =>
      let frame_id := wrap32 (frame_id + 1) in
      send_frame frame_id r ;;
      video_loop rest frame_id
  end.

(** The call [main] makes for frame [r], when all subscripts are in
    range. *)
Definition sent_call (frame_id : Z) (r : frame_result) : call :=
  mkCall frame_id (resized r)
    (map (fun i => nth (Z.to_nat i) (all_class_ids r) 0) (indices r))
    (map (fun i => nth (Z.to_nat i) (confidences r) 0) (indices r))
    (map (fun i => scale_box (nth (Z.to_nat i) (all_boxes r) (mkRect 0 0 0 0)))
         (indices r)).

(** The calls for a run of frames, the first of which gets [frame_id + 1]. *)
Fixpoint sent_calls (frames : list frame_result) (frame_id : Z) : list call :=
  match frames with
  | [] => []
  | r :: rest => sent_call (frame_id + 1) r :: sent_calls rest (frame_id + 1)
  end.

End FrameLoop.

(** The candidate vectors are parallel and the kept indices select
    candidates. *)
Definition valid_result (r : frame_result) : Prop :=
  length (all_class_ids r) = length (all_boxes r) /\
  length (confidences r) = length (all_boxes r) /\
  Forall (fun i => 0 <= i < size (all_boxes r)) (indices r).

(** The box lies inside the 640x640 image and is not empty. *)
Definition inside_image (b : Rect) : Prop :=
  0 <= x b /\ 0 <= y b /\ 1 <= width b /\ 1 <= height b /\
  x b + width b <= INPUT_WIDTH /\ y b + height b <= INPUT_HEIGHT.

(** ** More concrete inputs *)

(** A region with stale bytes everywhere behind a zero control block. *)
Definition stale_world : world :=
  mkWorld (fun a => if a <? 12 then 0 else 255) QUEUE_SIZE 0 Unowned [].

(** A control block whose write index is no slot number. *)
Definition corrupt_world : world :=
  mkWorld (fun a => if a =? 0 then 7 else 0) QUEUE_SIZE 0 Unowned [].

(** Two boxes, two confidences, one class id. *)
Definition ragged_call : call :=
  mkCall 1 gray_image [3] [1056964608; 1056964608]
    [mkRect 1 2 3 4; mkRect 5 6 7 8].

Definition six_calls : list call := three_calls ++ three_calls.

(** Three candidates on a 1920x1080 frame, of which the suppression keeps
    the third and the first. *)
Definition street_result : frame_result :=
  mkFrameResult gray_image [2; 0; 2]
    [1063843267; 1056964608; 1056964608]
    [mkRect 300 150 600 300; mkRect 310 160 600 300; mkRect 1800 900 120 180]
    [2; 0].

Definition third (v : Z) : Z := v / 3.
Definition sixteen_27th (v : Z) : Z := v * 16 / 27.

Definition six_frames : list frame_result :=
  [street_result; street_result; street_result;
   street_result; street_result; street_result].

(** ** Arithmetic of scalars and bytes *)

Lemma wrap32_id v : INT_MIN <= v <= INT_MAX -> wrap32 v = v.
Proof.
  unfold wrap32, INT_MIN, INT_MAX. intros H.
  rewrite Z.mod_small by lia. lia.
Qed.

Lemma wrap32_range v : INT_MIN <= wrap32 v <= INT_MAX.
Proof.
  unfold wrap32, INT_MIN, INT_MAX.
  pose proof (Z.mod_pos_bound (v + 2147483648) 4294967296). lia.
Qed.

Lemma int_of_bytes_int_byte v :
  int_of_bytes (int_byte v 0) (int_byte v 1) (int_byte v 2) (int_byte v 3)
  = wrap32 v.
Proof.
  unfold int_of_bytes, int_byte, wrap32.
  change (2 ^ (8 * 0)) with 1. change (2 ^ (8 * 1)) with 256.
  change (2 ^ (8 * 2)) with 65536. change (2 ^ (8 * 3)) with 16777216.
  f_equal.
  assert (E : v mod 256 + 256 * ((v / 256) mod 256) +
              65536 * ((v / 65536) mod 256) +
              16777216 * ((v / 16777216) mod 256) = v mod 4294967296).
  { Z.div_mod_to_equations. lia. }
  rewrite Z.div_1_r. rewrite E.
  rewrite <- (Z.add_mod_idemp_l v) by lia. reflexivity.
Qed.

Lemma int_byte_zero k : int_byte 0 k = 0.
Proof. unfold int_byte. rewrite Zdiv_0_l, Zmod_0_l; reflexivity. Qed.

Lemma wrap32_le v : 0 <= v -> wrap32 v <= v.
Proof.
  intros H. unfold wrap32.
  destruct (Z_lt_ge_dec v 2147483648).
  - rewrite Z.mod_small by lia. lia.
  - pose proof (Z.mod_pos_bound (v + 2147483648) 4294967296). lia.
Qed.

Lemma clamp_num_le_max bs : clamp_num bs <= MAX_DETECTIONS.
Proof.
  unfold clamp_num.
  destruct (wrap32 (size bs) >? MAX_DETECTIONS) eqn:E; lia.
Qed.

Lemma clamp_num_le_size bs : clamp_num bs <= size bs.
Proof.
  unfold clamp_num.
  assert (0 <= size bs) by (unfold size; lia).
  pose proof (wrap32_le (size bs) H).
  destruct (wrap32 (size bs) >? MAX_DETECTIONS) eqn:E; lia.
Qed.

Lemma clamp_num_small bs :
  size bs <= INT_MAX -> clamp_num bs = Z.min (size bs) MAX_DETECTIONS.
Proof.
  intros H. unfold clamp_num.
  rewrite wrap32_id by (unfold size, INT_MIN in *; lia).
  destruct (size bs >? MAX_DETECTIONS) eqn:E; lia.
Qed.

(** ** Memory *)

Lemma mem_write_in m p n src a :
  p <= a < p + n -> mem_write m p n src a = src (a - p).
Proof.
  intros H. unfold mem_write.
  replace ((p <=? a) && (a <? p + n)) with true; [reflexivity|].
  symmetry. apply andb_true_iff. split; [apply Z.leb_le | apply Z.ltb_lt]; lia.
Qed.

Lemma mem_write_out m p n src a :
  ~ (p <= a < p + n) -> mem_write m p n src a = m a.
Proof.
  intros H. unfold mem_write.
  destruct (p <=? a) eqn:E1; destruct (a <? p + n) eqn:E2; simpl; try reflexivity.
  apply Z.leb_le in E1. apply Z.ltb_lt in E2. lia.
Qed.

Lemma in_view_true p n : 0 <= p -> p + n <= SHM_SIZE -> in_view p n = true.
Proof.
  intros. unfold in_view. apply andb_true_iff.
  split; [apply Z.leb_le | apply Z.leb_le]; lia.
Qed.

(** ** Rules for [exec] *)

Lemma exec_ret {A} (a : A) w (Q : A -> world -> Prop) :
  Q a w -> exec (ret a) w Q.
Proof. intros H. exact H. Qed.

Lemma exec_bind {A B} (m : M A) (f : A -> M B) w (Q : B -> world -> Prop) :
  exec m w (fun a w' => exec (f a) w' Q) -> exec (bind m f) w Q.
Proof.
  unfold exec, bind. destruct (m w); auto.
Qed.

Lemma exec_conseq {A} (m : M A) w (Q Q' : A -> world -> Prop) :
  exec m w Q -> (forall a w', Q a w' -> Q' a w') -> exec m w Q'.
Proof.
  unfold exec. destruct (m w); auto.
Qed.

Lemma exec_Ok {A} (m : M A) w (Q : A -> world -> Prop) :
  exec m w Q -> exists a w', m w = Ok a w' /\ Q a w'.
Proof.
  unfold exec. destruct (m w) as [a w'| |]; try contradiction.
  intros H. exists a, w'. auto.
Qed.

Lemma exec_memcpy p src n w (Q : unit -> world -> Prop) :
  0 <= p -> p + n <= SHM_SIZE ->
  Q tt (log (EvStore p n) (set_shm (mem_write (shm w) p n src) w)) ->
  exec (memcpy p src n) w Q.
Proof.
  intros H1 H2 H. unfold exec, memcpy. rewrite in_view_true by assumption.
  exact H.
Qed.

Lemma exec_load_int p w (Q : Z -> world -> Prop) :
  0 <= p -> p + 4 <= SHM_SIZE ->
  Q (int_of_bytes (shm w p) (shm w (p + 1)) (shm w (p + 2)) (shm w (p + 3)))
    (log (EvLoad p 4) w) ->
  exec (load_int p) w Q.
Proof.
  intros H1 H2 H. unfold exec, load_int. rewrite in_view_true by assumption.
  exact H.
Qed.

Lemma exec_at {A} name (v : list A) i d w (Q : A -> world -> Prop) :
  0 <= i < size v ->
  Q (nth (Z.to_nat i) v d) (log (EvIndex name i) w) ->
  exec (at_ name v i) w Q.
Proof.
  intros H HQ. unfold exec, at_, size in *.
  replace (0 <=? i) with true by (symmetry; apply Z.leb_le; lia).
  destruct (nth_error v (Z.to_nat i)) as [a|] eqn:E.
  - rewrite (nth_error_nth v _ d E) in HQ. exact HQ.
  - apply nth_error_None in E. lia.
Qed.

Lemma exec_emit e w (Q : unit -> world -> Prop) :
  Q tt (log e w) -> exec (emit e) w Q.
Proof. intros H. exact H. Qed.

(** Constants, as numerals. *)
Ltac consts :=
  unfold slot_offset, HEADER_SIZE, DETECTIONS_SIZE, IMAGE_SIZE, SHM_SIZE,
    SLOT_SIZE, DET_RECORD_SIZE, MAX_DETECTIONS, QUEUE_SIZE, INPUT_WIDTH,
    INPUT_HEIGHT, CHANNELS, sizeof_int, INT_MAX, INT_MIN in *.

(** Reading a byte through a stack of [mem_write]s. *)
Ltac mem_read :=
  repeat first
    [ rewrite mem_write_in by lia
    | rewrite mem_write_out by lia ].

Ltac world_simpl :=
  cbv beta delta [log set_shm set_semEmpty set_semFull set_mutex];
  cbn [shm semEmpty semFull mutex trace].

(** One statement of a program: run it and flatten the state. *)
Ltac step_memcpy :=
  apply exec_bind; apply exec_memcpy; [consts; lia | consts; lia | world_simpl].

Ltac step_at dflt :=
  apply exec_bind; apply (exec_at _ _ _ dflt); [lia | world_simpl].

(** ** The detection loop *)

Lemma write_detection_spec c slot i p w :
  parallel c ->
  0 <= i < MAX_DETECTIONS ->
  0 <= slot -> slot + SLOT_SIZE <= SHM_SIZE ->
  p = slot + HEADER_SIZE + DET_RECORD_SIZE * i ->
  exec (write_detection (class_ids c) (confs c) (boxes c) (num_of c) i p) w
    (fun p' w' => p' = p + DET_RECORD_SIZE /\ record_written c slot i p w w').
Proof.
  intros [Hc Hf] Hi Hs0 Hs1 Hp.
  pose proof (clamp_num_le_max (boxes c)) as Hmax.
  pose proof (clamp_num_le_size (boxes c)) as Hsz.
  assert (Hc' : size (class_ids c) = size (boxes c)) by (unfold size; lia).
  assert (Hf' : size (confs c) = size (boxes c)) by (unfold size; lia).
  unfold write_detection.
  destruct (i <? num_of c) eqn:E.
  - apply Z.ltb_lt in E. unfold num_of in E.
    assert (Hib : 0 <= i < size (boxes c)) by lia.
    step_at 0.
    step_memcpy.
    step_at 0.
    step_memcpy.
    step_at (mkRect 0 0 0 0).
    step_memcpy.
    step_at (mkRect 0 0 0 0).
    step_memcpy.
    step_at (mkRect 0 0 0 0).
    step_memcpy.
    step_at (mkRect 0 0 0 0).
    step_memcpy.
    apply exec_ret. split; [consts; lia|].
    constructor; world_simpl; [reflexivity | reflexivity | reflexivity | | | ].
    + intros f j Hfr Hj. unfold record_field, num_of.
      replace (i <? clamp_num (boxes c)) with true by (symmetry; apply Z.ltb_lt; lia).
      assert (Hcase : f = 0 \/ f = 1 \/ f = 2 \/ f = 3 \/ f = 4 \/ f = 5) by lia.
      destruct Hcase as [->|[->|[->|[->|[->| ->]]]]];
        mem_read; f_equal; lia.
    + intros a Ha. consts. mem_read. reflexivity.
    + eexists. split.
      * repeat rewrite <- app_assoc. cbn [app]. reflexivity.
      * repeat constructor; cbn [body_event]; try (consts; lia).
  - apply Z.ltb_ge in E.
    step_memcpy.
    apply exec_ret. split; [consts; lia|].
    constructor; world_simpl; [reflexivity | reflexivity | reflexivity | | | ].
    + intros f j Hfr Hj. unfold record_field.
      replace (i <? num_of c) with false by (symmetry; apply Z.ltb_ge; lia).
      rewrite int_byte_zero. mem_read. reflexivity.
    + intros a Ha. consts. mem_read. reflexivity.
    + eexists. split; [reflexivity|].
      repeat constructor; cbn [body_event]; consts; lia.
Qed.

Lemma for_iter_spec c slot n : forall i p w,
  parallel c ->
  0 <= i -> i + Z.of_nat n <= MAX_DETECTIONS ->
  0 <= slot -> slot + SLOT_SIZE <= SHM_SIZE ->
  p = slot + HEADER_SIZE + DET_RECORD_SIZE * i ->
  exec (for_iter n i (write_detection (class_ids c) (confs c) (boxes c) (num_of c)) p) w
    (fun p' w' =>
       p' = p + DET_RECORD_SIZE * Z.of_nat n /\
       records_written c slot i (Z.of_nat n) p w w').
Proof.
  induction n as [|n IH]; intros i p w Hpar Hi Hn Hs0 Hs1 Hp.
  - apply exec_ret. split; [lia|].
    constructor; try reflexivity.
    + intros k f j Hk. lia.
    + exists []. split; [symmetry; apply app_nil_r | constructor].
  - cbn [for_iter]. apply exec_bind.
    eapply exec_conseq.
    { apply (write_detection_spec c slot i p w); try assumption. lia. }
    intros p1 w1 [-> H1]. cbv beta.
    eapply exec_conseq.
    { apply (IH (i + 1) (p + DET_RECORD_SIZE) w1); try assumption; consts; lia. }
    intros p2 w2 [-> H2]. cbv beta.
    split; [consts; lia|].
    destruct H1 as [a1 b1 c1 d1 e1 [t1 [Ht1 Ft1]]].
    destruct H2 as [a2 b2 c2 d2 e2 [t2 [Ht2 Ft2]]].
    constructor; try congruence.
    + intros k f j Hk Hf Hj.
      destruct (Z.eq_dec k 0) as [->|Hk0].
      * rewrite e2 by (consts; lia).
        replace (p + DET_RECORD_SIZE * 0 + 4 * f + j) with (p + 4 * f + j) by lia.
        replace (i + 0) with i by lia. apply d1; assumption.
      * replace (p + DET_RECORD_SIZE * k + 4 * f + j)
          with (p + DET_RECORD_SIZE + DET_RECORD_SIZE * (k - 1) + 4 * f + j)
          by lia.
        replace (i + k) with (i + 1 + (k - 1)) by lia.
        apply d2; lia.
    + intros a Ha. rewrite e2 by (consts; lia). apply e1. consts. lia.
    + exists (t1 ++ t2). split.
      * rewrite Ht2, Ht1. symmetry. apply app_assoc.
      * apply Forall_app. split; assumption.
Qed.

Lemma for_loop_spec c slot w :
  parallel c ->
  0 <= slot -> slot + SLOT_SIZE <= SHM_SIZE ->
  exec (for_loop 0 MAX_DETECTIONS
          (write_detection (class_ids c) (confs c) (boxes c) (num_of c))
          (slot + HEADER_SIZE)) w
    (fun p' w' =>
       p' = slot + HEADER_SIZE + DETECTIONS_SIZE /\
       records_written c slot 0 MAX_DETECTIONS (slot + HEADER_SIZE) w w').
Proof.
  intros Hpar Hs0 Hs1. unfold for_loop.
  eapply exec_conseq.
  { apply (for_iter_spec c slot (Z.to_nat (MAX_DETECTIONS - 0)) 0 (slot + HEADER_SIZE) w);
      try assumption; try lia.
    all: try (rewrite Z2Nat.id; consts; lia).
    all: consts; lia. }
  intros p' w' [-> H]. cbv beta.
  replace (Z.of_nat (Z.to_nat (MAX_DETECTIONS - 0))) with MAX_DETECTIONS in *
    by (rewrite Z2Nat.id; consts; lia).
  split; [consts; lia | exact H].
Qed.

(** ** Kernel objects *)

Lemma exec_wait_semEmpty w (Q : unit -> world -> Prop) :
  0 < semEmpty w ->
  Q tt (log (EvWait semEmptyH) (set_semEmpty (semEmpty w - 1) w)) ->
  exec (WaitForSingleObject semEmptyH) w Q.
Proof.
  intros H HQ. unfold exec, WaitForSingleObject.
  replace (0 <? semEmpty w) with true by (symmetry; apply Z.ltb_lt; lia).
  exact HQ.
Qed.

Lemma exec_wait_mutex w (Q : unit -> world -> Prop) :
  mutex w = Unowned ->
  Q tt (log (EvWait mutexH) (set_mutex (OwnedByProducer 0) w)) ->
  exec (WaitForSingleObject mutexH) w Q.
Proof.
  intros H HQ. unfold exec, WaitForSingleObject. rewrite H. exact HQ.
Qed.

Lemma exec_release_mutex w (Q : unit -> world -> Prop) :
  mutex w = OwnedByProducer 0 ->
  Q tt (log (EvRelease mutexH) (set_mutex Unowned w)) ->
  exec ReleaseMutex w Q.
Proof.
  intros H HQ. unfold exec, ReleaseMutex. rewrite H. exact HQ.
Qed.

Lemma exec_release_semFull w (Q : unit -> world -> Prop) :
  Q tt (log (EvRelease semFullH)
          (set_semFull (if semFull w + 1 <=? QUEUE_SIZE
                        then semFull w + 1 else semFull w) w)) ->
  exec (ReleaseSemaphore semFullH) w Q.
Proof.
  intros HQ. unfold exec, ReleaseSemaphore.
  destruct (semFull w + 1 <=? QUEUE_SIZE); [exact HQ|].
  destruct w; exact HQ.
Qed.

Lemma ctrl_stored w k v :
  (forall j, 0 <= j < 4 -> shm w (k * sizeof_int + j) = int_byte v j) ->
  ctrl w k = wrap32 v.
Proof.
  intros H. unfold ctrl. cbv zeta.
  rewrite <- int_of_bytes_int_byte.
  rewrite <- (H 0), <- (H 1), <- (H 2), <- (H 3) by lia.
  rewrite Z.add_0_r. reflexivity.
Qed.

Lemma ctrl_unchanged w w' k :
  (forall j, 0 <= j < 4 -> shm w' (k * sizeof_int + j) = shm w (k * sizeof_int + j)) ->
  ctrl w' k = ctrl w k.
Proof.
  intros H. unfold ctrl. cbv zeta.
  pose proof (H 0) as H0. rewrite Z.add_0_r in H0.
  rewrite H0, (H 1), (H 2), (H 3) by lia. reflexivity.
Qed.

(** ** One enqueue *)

Lemma slot_in_view i :
  0 <= i < QUEUE_SIZE ->
  12 <= slot_offset i /\ slot_offset i + SLOT_SIZE <= SHM_SIZE.
Proof. intros H. consts. lia. Qed.

Lemma image_spec c slot w :
  0 <= slot -> slot + SLOT_SIZE <= SHM_SIZE ->
  exec (if total (frame640 c) * elemSize (frame640 c)
           =? INPUT_WIDTH * INPUT_HEIGHT * CHANNELS
        then memcpy (slot + HEADER_SIZE + DETECTIONS_SIZE) (data (frame640 c))
               (INPUT_WIDTH * INPUT_HEIGHT * CHANNELS)
        else emit EvCerr ;;
             memset (slot + HEADER_SIZE + DETECTIONS_SIZE) 0
               (INPUT_WIDTH * INPUT_HEIGHT * CHANNELS)) w
    (fun _ w' => image_written c slot (slot + HEADER_SIZE + DETECTIONS_SIZE) w w').
Proof.
  intros Hs0 Hs1.
  destruct (total (frame640 c) * elemSize (frame640 c)
            =? INPUT_WIDTH * INPUT_HEIGHT * CHANNELS) eqn:E.
  - apply exec_memcpy; [consts; lia | consts; lia |].
    constructor; world_simpl; [reflexivity | reflexivity | reflexivity | | | ].
    + intros j Hj. unfold image_byte, image_matches, IMAGE_SIZE in *. rewrite E.
      mem_read. f_equal. lia.
    + intros a Ha. unfold IMAGE_SIZE in *. mem_read. reflexivity.
    + eexists. split; [reflexivity|].
      repeat constructor; cbn [body_event]; consts; lia.
  - apply exec_bind. apply exec_emit.
    apply exec_memcpy; [consts; lia | consts; lia |].
    constructor; world_simpl; [reflexivity | reflexivity | reflexivity | | | ].
    + intros j Hj. unfold image_byte, image_matches, IMAGE_SIZE in *. rewrite E.
      mem_read. reflexivity.
    + intros a Ha. unfold IMAGE_SIZE in *. mem_read. reflexivity.
    + eexists. split; [rewrite <- app_assoc; cbn [app]; reflexivity|].
      repeat constructor; cbn [body_event]; try exact E; consts; lia.
Qed.

Lemma enqueue_spec c w :
  ready w -> parallel c ->
  exec (enqueue c) w (fun _ w' => enqueued c w w').
Proof.
  intros (Hsem & Hmut & Hidx) Hpar.
  destruct (slot_in_view _ Hidx) as [Hs0 Hs1].
  unfold enqueue, write_frame.
  apply exec_bind. apply exec_wait_semEmpty; [assumption|]. world_simpl.
  apply exec_bind. apply exec_wait_mutex; [assumption|]. world_simpl.
  apply exec_bind. apply exec_load_int; [consts; lia | consts; lia |].
  world_simpl.
  change (int_of_bytes (shm w (0 * sizeof_int)) (shm w (0 * sizeof_int + 1))
            (shm w (0 * sizeof_int + 2)) (shm w (0 * sizeof_int + 3)))
    with (write_index w).
  set (slot := slot_offset (write_index w)) in *.
  step_memcpy.
  step_memcpy.
  step_memcpy.
  step_memcpy.
  step_memcpy.
  world_simpl.
  replace (slot + 4 + 4 + 4 + 4 + 4) with (slot + HEADER_SIZE) by (consts; lia).
  match goal with |- exec _ ?w1 _ => set (w1' := w1) end.
  apply exec_bind. eapply exec_conseq.
  { apply (for_loop_spec c slot w1'); [assumption | lia | lia]. }
  intros p2 w2 [-> H2]. cbv beta.
  apply exec_bind. eapply exec_conseq.
  { apply (image_spec c slot w2); lia. }
  intros u3 w3 H3. cbv beta.
  step_memcpy.
  destruct H2 as [a2 b2 c2 d2 e2 [t2 [Ht2 Ft2]]].
  destruct H3 as [a3 b3 c3 d3 e3 [t3 [Ht3 Ft3]]].
  assert (Hout : forall a, ~ (slot <= a < slot + SLOT_SIZE) -> shm w3 a = shm w a).
  { intros a Ha. rewrite e3, e2 by (consts; lia).
    unfold w1'. cbn [shm]. consts. mem_read. reflexivity. }
  assert (Hin : forall a, a < slot + HEADER_SIZE -> shm w3 a = shm w1' a).
  { intros a Ha. rewrite e3, e2 by (consts; lia). reflexivity. }
  apply exec_bind. apply exec_load_int; [consts; lia | consts; lia |].
  world_simpl.
  match goal with |- context [wrap32 (?e + 1)] => set (count := e) end.
  assert (Hcount : count = total_written w).
  { unfold count, total_written, ctrl. cbv zeta. consts. mem_read.
    rewrite !Hout by (consts; lia). reflexivity. }
  clearbody count. subst count.
  step_memcpy.
  apply exec_bind. apply exec_emit. world_simpl.
  apply exec_bind. apply exec_release_mutex; [cbn [mutex]; rewrite c3, c2; reflexivity|].
  world_simpl.
  apply exec_release_semFull. world_simpl.
  assert (Hrem : 0 <= Z.rem (write_index w + 1) QUEUE_SIZE < QUEUE_SIZE).
  { apply Z.rem_bound_pos; consts; lia. }
  rewrite (wrap32_id (write_index w + 1)) by (consts; lia).
  constructor; cbn [shm semEmpty semFull mutex trace]; fold slot.
  - rewrite a3, a2. reflexivity.
  - rewrite b3, b2. reflexivity.
  - reflexivity.
  - intros f j Hf Hj. consts. mem_read.
    rewrite Hin by (consts; lia). unfold w1'. cbn [shm].
    assert (Hcase : f = 0 \/ f = 1 \/ f = 2 \/ f = 3 \/ f = 4) by lia.
    destruct Hcase as [->|[->|[->|[->| ->]]]];
      cbv beta iota delta [header_field num_of]; consts;
      mem_read; f_equal; lia.
  - intros k f j Hk Hf Hj. consts. mem_read.
    rewrite e3 by (consts; lia).
    pose proof (d2 k f j) as D. rewrite Z.add_0_l in D.
    rewrite <- D by (consts; lia). consts. reflexivity.
  - intros j Hj. consts. mem_read. rewrite <- (d3 j) by (consts; lia).
    consts. reflexivity.
  - unfold write_index at 1. rewrite (ctrl_stored _ 0 (Z.rem (write_index w + 1) QUEUE_SIZE)).
    + apply wrap32_id. consts. lia.
    + intros j Hj. cbn [shm]. consts. mem_read. f_equal. lia.
  - unfold total_written at 1.
    rewrite (ctrl_stored _ 2 (wrap32 (total_written w + 1))).
    + apply wrap32_id. apply wrap32_range.
    + intros j Hj. cbn [shm]. consts. mem_read. f_equal. lia.
  - intros a Ha H0 H8. consts. mem_read. apply Hout. consts. lia.
  - exists (t2 ++ t3). split.
    + rewrite Ht3, Ht2. unfold w1', header_events, advance_events, num_of.
      cbn [trace].
      repeat rewrite <- app_assoc. cbn [app].
      replace (slot + 4 + 4 + 4 + 4) with (slot + 16) by lia.
      replace (slot + 4 + 4 + 4) with (slot + 12) by lia.
      replace (slot + 4 + 4) with (slot + 8) by lia.
      reflexivity.
    + apply Forall_app. split; assumption.
Qed.

Lemma enq_trace c w w' :
  enqueued c w w' ->
  exists body,
    trace w' = trace w ++ EvWait semEmptyH :: EvWait mutexH :: body
                       ++ [EvRelease mutexH; EvRelease semFullH] /\
    Forall (body_event c (slot_offset (write_index w))) body.
Proof.
  intros H. destruct (enq_events _ _ _ H) as (mid & Ht & Fm).
  eexists. split; [exact Ht|].
  apply Forall_app. split; [|apply Forall_app; split; [exact Fm|]].
  - unfold header_events.
    repeat constructor; cbn [body_event]; consts; lia.
  - unfold advance_events.
    repeat constructor; cbn [body_event]; consts; lia.
Qed.

Lemma enq_stores c w w' :
  enqueued c w w' ->
  exists body,
    trace w' = trace w ++ EvWait semEmptyH :: EvWait mutexH :: body
                       ++ [EvRelease mutexH; EvRelease semFullH] /\
    Forall (body_event c (slot_offset (write_index w))) body /\
    In (EvStore (slot_offset (write_index w)) 4) body /\
    In (EvStore 0 4) body /\ In (EvStore 8 4) body.
Proof.
  intros H. destruct (enq_events _ _ _ H) as (mid & Ht & Fm).
  eexists. split; [exact Ht|]. split; [|split; [|split]].
  - apply Forall_app. split; [|apply Forall_app; split; [exact Fm|]].
    + unfold header_events.
      repeat constructor; cbn [body_event]; consts; lia.
    + unfold advance_events.
      repeat constructor; cbn [body_event]; consts; lia.
  - apply in_or_app. left. cbn. auto.
  - apply in_or_app. right. apply in_or_app. right. cbn. auto.
  - apply in_or_app. right. apply in_or_app. right. cbn. auto.
Qed.

Lemma enqueue_Ok c w :
  ready w -> parallel c ->
  exists w', enqueue c w = Ok tt w' /\ enqueued c w w'.
Proof.
  intros Hr Hp.
  destruct (exec_Ok _ _ _ (enqueue_spec c w Hr Hp)) as ([] & w' & E & H).
  exists w'. split; assumption.
Qed.

Lemma enqueued_slot_holds c w w' :
  enqueued c w w' -> slot_holds c (shm w') (slot_offset (write_index w)).
Proof.
  intros H. constructor.
  - apply (enq_header _ _ _ H).
  - apply (enq_records _ _ _ H).
  - apply (enq_image _ _ _ H).
Qed.

(** ** Reading byte ranges *)

Lemma load_bytes_length m p n : length (load_bytes m p n) = n.
Proof. unfold load_bytes. rewrite length_map, length_seq. reflexivity. Qed.

Lemma load_bytes_ext m m' p n :
  (forall j, 0 <= j < Z.of_nat n -> m (p + j) = m' (p + j)) ->
  load_bytes m p n = load_bytes m' p n.
Proof.
  intros H. unfold load_bytes. apply map_ext_in.
  intros k Hk. apply in_seq in Hk. apply H. lia.
Qed.

Lemma map_seq_offset {A} (g : nat -> A) a : forall b s,
  map g (seq (s + a) b) = map (fun k => g (k + a)%nat) (seq s b).
Proof.
  induction b as [|b IH]; intros s; [reflexivity|].
  cbn [seq map]. f_equal. apply (IH (S s)).
Qed.

Lemma load_bytes_app m p a b :
  load_bytes m p (a + b) = load_bytes m p a ++ load_bytes m (p + Z.of_nat a) b.
Proof.
  unfold load_bytes. rewrite seq_app, map_app. f_equal.
  rewrite (map_seq_offset (fun k => m (p + Z.of_nat k)) a b 0).
  apply map_ext. intros k. f_equal. lia.
Qed.

Lemma load_bytes_word m p v :
  (forall j, 0 <= j < 4 -> m (p + j) = int_byte v j) ->
  load_bytes m p 4 = encode_int v.
Proof.
  intros H. unfold load_bytes, encode_int. cbn [seq map].
  change (Z.of_nat 0) with 0. change (Z.of_nat 1) with 1.
  change (Z.of_nat 2) with 2. change (Z.of_nat 3) with 3.
  rewrite (H 0), (H 1), (H 2), (H 3) by lia. reflexivity.
Qed.

(** ** The bytes of a slot, as lists *)

Lemma slot_header_word c m slot f :
  slot_holds c m slot -> 0 <= f < 5 ->
  load_bytes m (slot + 4 * f) 4 = encode_int (header_field c f).
Proof.
  intros H Hf. apply load_bytes_word. intros j Hj.
  apply (sh_header _ _ _ H); assumption.
Qed.

Lemma slot_header_bytes c m slot :
  slot_holds c m slot ->
  load_bytes m slot 20 = encode_header (frame_id c) (num_of c).
Proof.
  intros H.
  change 20%nat with (4 + (4 + (4 + (4 + 4))))%nat.
  rewrite !load_bytes_app. change (Z.of_nat 4) with 4.
  replace slot with (slot + 4 * 0) at 1 by lia.
  replace (slot + 4) with (slot + 4 * 1) by lia.
  replace (slot + 4 * 1 + 4) with (slot + 4 * 2) by lia.
  replace (slot + 4 * 2 + 4) with (slot + 4 * 3) by lia.
  replace (slot + 4 * 3 + 4) with (slot + 4 * 4) by lia.
  rewrite !(slot_header_word c m slot) by (assumption || lia).
  reflexivity.
Qed.

Lemma slot_record_bytes c m slot k :
  slot_holds c m slot ->
  0 <= k < MAX_DETECTIONS ->
  load_bytes m (slot + HEADER_SIZE + DET_RECORD_SIZE * k) 24 = record_bytes c k.
Proof.
  intros H Hk.
  change 24%nat with (4 + (4 + (4 + (4 + (4 + 4)))))%nat.
  rewrite !load_bytes_app. change (Z.of_nat 4) with 4.
  unfold record_bytes.
  repeat f_equal; apply load_bytes_word; intros j Hj.
  - rewrite <- (sh_records _ _ _ H k 0 j) by lia. f_equal; lia.
  - rewrite <- (sh_records _ _ _ H k 1 j) by lia. f_equal; lia.
  - rewrite <- (sh_records _ _ _ H k 2 j) by lia. f_equal; lia.
  - rewrite <- (sh_records _ _ _ H k 3 j) by lia. f_equal; lia.
  - rewrite <- (sh_records _ _ _ H k 4 j) by lia. f_equal; lia.
  - rewrite <- (sh_records _ _ _ H k 5 j) by lia. f_equal; lia.
Qed.

Lemma load_bytes_concat m (L : list (list byte)) : forall p,
  (forall k, (k < length L)%nat ->
     load_bytes m (p + DET_RECORD_SIZE * Z.of_nat k) 24 = nth k L []) ->
  load_bytes m p (24 * length L) = concat L.
Proof.
  induction L as [|r L IH]; intros p H; [reflexivity|].
  cbn [length concat].
  replace (24 * S (length L))%nat with (24 + 24 * length L)%nat by lia.
  rewrite load_bytes_app. f_equal.
  - pose proof (H 0%nat) as H0. cbn [nth length] in H0.
    rewrite <- H0 by lia. f_equal. consts. lia.
  - apply IH. intros k Hk.
    pose proof (H (S k)) as HS. cbn [nth length] in HS.
    rewrite <- HS by lia. f_equal. consts. lia.
Qed.

(** ** The code's records against the documented layout *)

Lemma stored_length c :
  parallel c ->
  length (stored_detections c) = Nat.min 200 (length (boxes c)).
Proof.
  intros [Hc Hf]. unfold stored_detections.
  change (Z.to_nat MAX_DETECTIONS) with 200%nat.
  rewrite length_firstn, !length_combine. lia.
Qed.

Lemma stored_count_min c :
  parallel c -> stored_count c = Z.min (size (boxes c)) MAX_DETECTIONS.
Proof.
  intros H. unfold stored_count, size. rewrite (stored_length c H).
  consts. lia.
Qed.

Lemma stored_count_num c : well_formed c -> stored_count c = num_of c.
Proof.
  intros [Hp Hs]. rewrite (stored_count_min c Hp).
  unfold num_of. symmetry. apply clamp_num_small. assumption.
Qed.

Lemma stored_nth c k :
  parallel c ->
  (k < length (stored_detections c))%nat ->
  nth k (stored_detections c) no_detection
  = (nth k (class_ids c) 0, (nth k (confs c) 0, nth k (boxes c) (mkRect 0 0 0 0))).
Proof.
  intros Hp Hk. rewrite (stored_length c Hp) in Hk. destruct Hp as [Hc Hf].
  unfold stored_detections, no_detection.
  change (Z.to_nat MAX_DETECTIONS) with 200%nat.
  rewrite nth_firstn.
  replace (k <? 200)%nat with true by (symmetry; apply Nat.ltb_lt; lia).
  rewrite combine_nth by (rewrite length_combine; lia).
  rewrite combine_nth by lia. reflexivity.
Qed.

Lemma record_bytes_stored c k :
  well_formed c ->
  0 <= k < stored_count c ->
  record_bytes c k = encode_detection (nth (Z.to_nat k) (stored_detections c) no_detection).
Proof.
  intros Hw Hk. pose proof (stored_count_num c Hw) as Hn.
  destruct Hw as [Hp Hs].
  rewrite (stored_nth c (Z.to_nat k) Hp) by (unfold stored_count, size in Hk; lia).
  unfold record_bytes, record_field.
  replace (k <? num_of c) with true by (symmetry; apply Z.ltb_lt; lia).
  reflexivity.
Qed.

Lemma record_bytes_zero c k : num_of c <= k -> record_bytes c k = zero_record.
Proof.
  intros Hk. unfold record_bytes, record_field.
  replace (k <? num_of c) with false by (symmetry; apply Z.ltb_ge; lia).
  unfold encode_int. rewrite !int_byte_zero. reflexivity.
Qed.

Lemma encode_detections_concat c :
  encode_detections c = concat (detection_array c).
Proof.
  unfold encode_detections, detection_array.
  rewrite concat_app, flat_map_concat_map. reflexivity.
Qed.

Lemma detection_array_length c :
  length (detection_array c) = 200%nat.
Proof.
  unfold detection_array.
  rewrite length_app, length_map, repeat_length.
  assert (length (stored_detections c) <= 200)%nat.
  { unfold stored_detections. rewrite length_firstn.
    change (Z.to_nat MAX_DETECTIONS) with 200%nat. lia. }
  change (Z.to_nat MAX_DETECTIONS) with 200%nat. lia.
Qed.

Lemma detection_array_nth c k :
  well_formed c -> (k < 200)%nat ->
  nth k (detection_array c) [] = record_bytes c (Z.of_nat k).
Proof.
  intros Hw Hk. pose proof (stored_count_num c Hw) as Hn.
  unfold detection_array.
  destruct (Nat.lt_ge_cases k (length (stored_detections c))) as [Hlt|Hge].
  - rewrite app_nth1 by (rewrite length_map; assumption).
    rewrite (nth_indep _ [] (encode_detection no_detection))
      by (rewrite length_map; assumption).
    rewrite map_nth.
    rewrite record_bytes_stored by (assumption || (unfold stored_count, size; lia)).
    rewrite Nat2Z.id. reflexivity.
  - rewrite app_nth2 by (rewrite length_map; assumption).
    rewrite length_map.
    rewrite nth_repeat_lt
      by (change (Z.to_nat MAX_DETECTIONS) with 200%nat; lia).
    symmetry. apply record_bytes_zero.
    unfold stored_count, size in Hn. lia.
Qed.

Lemma slot_detections_bytes c m slot :
  slot_holds c m slot -> well_formed c ->
  load_bytes m (slot + HEADER_SIZE) 4800 = encode_detections c.
Proof.
  intros H Hw. rewrite encode_detections_concat.
  replace 4800%nat with (24 * length (detection_array c))%nat
    by (rewrite detection_array_length; reflexivity).
  apply load_bytes_concat. intros k Hk.
  rewrite detection_array_length in Hk.
  rewrite (slot_record_bytes c m slot) by (assumption || (consts; lia)).
  symmetry. apply detection_array_nth; assumption.
Qed.

Lemma slot_frame_bytes c m slot :
  slot_holds c m slot -> well_formed c ->
  load_bytes m slot 4820
  = encode_header (frame_id c) (stored_count c) ++ encode_detections c.
Proof.
  intros H Hw. change 4820%nat with (20 + 4800)%nat.
  rewrite load_bytes_app.
  rewrite (slot_header_bytes c m slot H).
  rewrite (stored_count_num c Hw).
  change (Z.of_nat 20) with HEADER_SIZE.
  rewrite (slot_detections_bytes c m slot H Hw). reflexivity.
Qed.

(** ** Sequences of enqueues *)

Lemma size_cons {A} (a : A) l : size (a :: l) = 1 + size l.
Proof. unfold size. cbn [length]. lia. Qed.

Lemma slot_holds_ext c m m' slot :
  (forall a, slot <= a < slot + SLOT_SIZE -> m' a = m a) ->
  slot_holds c m slot -> slot_holds c m' slot.
Proof.
  intros E H. constructor.
  - intros f j Hf Hj. rewrite E by (consts; lia). apply (sh_header _ _ _ H); assumption.
  - intros k f j Hk Hf Hj. rewrite E by (consts; lia).
    apply (sh_records _ _ _ H); assumption.
  - intros j Hj. rewrite E by (consts; lia). apply (sh_image _ _ _ H); assumption.
Qed.

Lemma enqueue_all_spec cs : forall w s,
  write_index w = s -> 0 <= s < QUEUE_SIZE ->
  s + size cs <= QUEUE_SIZE ->
  size cs <= semEmpty w ->
  mutex w = Unowned ->
  Forall parallel cs ->
  exec (enqueue_all cs) w (fun _ w' => enqueued_all cs s w w').
Proof.
  induction cs as [|c rest IH]; intros w s Hs Hrange Hfit Hsem Hmut Hpar.
  - apply exec_ret. constructor; try reflexivity.
    + rewrite Hs. unfold size. cbn [length]. rewrite Z.add_0_r.
      symmetry. apply Z.mod_small. assumption.
    + unfold size. cbn [length]. lia.
    + assumption.
    + intros [|i] c0 E; discriminate E.
  - rewrite size_cons in Hfit, Hsem.
    assert (0 <= size rest) by (unfold size; lia).
    inversion Hpar as [|c' rest' Hc Hrest]; subst c' rest'.
    cbn [enqueue_all]. apply exec_bind.
    eapply exec_conseq.
    { apply (enqueue_spec c w); [|assumption].
      repeat split; try assumption; lia. }
    intros u w1 H1. cbv beta.
    pose proof (enqueued_slot_holds c w w1 H1) as Hslot.
    destruct H1 as [e1 _ e3 _ _ _ e7 _ e9 _].
    rewrite Hs in *.
    rewrite Z.rem_mod_nonneg in e7 by (consts; lia).
    destruct rest as [|c2 rest'].
    + apply exec_ret. constructor.
      * rewrite e7. reflexivity.
      * rewrite e1. unfold size. cbn [length]. lia.
      * assumption.
      * intros [|i] c0 E; [|destruct i; discriminate E].
        injection E as <-. rewrite Z.add_0_r. assumption.
      * intros a Ha Hc0 Hc2. apply e9; try assumption.
        unfold size in Ha. cbn [length] in Ha. consts. lia.
    + rewrite size_cons in *.
      assert (0 <= size rest') by (unfold size; lia).
      rewrite Z.mod_small in e7 by (consts; lia).
      eapply exec_conseq.
      { apply (IH w1 (s + 1)); try assumption; rewrite ?size_cons; consts; lia. }
      intros u2 w2 [f1 f2 f3 f4 f5]. cbv beta. rewrite size_cons in *.
      constructor.
      * rewrite f1, !size_cons. f_equal. lia.
      * rewrite f2, e1, !size_cons. lia.
      * assumption.
      * intros [|i] c0 E.
        -- injection E as <-. rewrite Z.add_0_r.
           apply (slot_holds_ext c (shm w1)); [|assumption].
           intros a Ha. apply f5; consts; lia.
        -- replace (s + Z.of_nat (S i)) with (s + 1 + Z.of_nat i) by lia.
           apply f4. exact E.
      * intros a Ha Hc0 Hc2. rewrite !size_cons in Ha.
        rewrite f5 by (try assumption; consts; lia).
        apply e9; try assumption. consts. lia.
Qed.

Lemma enqueue_all_from_start cs w :
  initialised w -> size cs <= QUEUE_SIZE -> Forall parallel cs ->
  exists w', enqueue_all cs w = Ok tt w' /\ enqueued_all cs 0 w w'.
Proof.
  intros (Hw & Hsem & Hmut) Hn Hpar.
  assert (E : exec (enqueue_all cs) w (fun _ w' => enqueued_all cs 0 w w')).
  { apply enqueue_all_spec; try assumption; consts; lia. }
  destruct (exec_Ok _ _ _ E) as ([] & w' & E' & H).
  exists w'. split; assumption.
Qed.

(** * The properties *)

(** C1.  From a freshly initialised queue, any [N <= QUEUE_SIZE] enqueue
    calls all return; afterwards slot [i] holds, byte for byte, the encoded
    header and detection array of the [i]-th call, and after the first [k]
    calls the write index is [k mod QUEUE_SIZE]. *)
Theorem fifo_slots_and_write_index (cs : list call) (w0 : world) :
  initialised w0 ->
  size cs <= QUEUE_SIZE ->
  Forall well_formed cs ->
  exists wN,
    enqueue_all cs w0 = Ok tt wN /\
    (forall i c, nth_error cs i = Some c ->
       load_bytes (shm wN) (slot_offset (Z.of_nat i)) 4820
       = encode_header (frame_id c) (stored_count c) ++ encode_detections c) /\
    (forall k, (k <= length cs)%nat ->
       exists wk,
         enqueue_all (firstn k cs) w0 = Ok tt wk /\
         write_index wk = Z.of_nat k mod QUEUE_SIZE).
Proof.
  intros Hinit Hn Hwf.
  assert (Hpar : Forall parallel cs).
  { eapply Forall_impl; [|exact Hwf]. intros c [H _]. exact H. }
  destruct (enqueue_all_from_start cs w0 Hinit Hn Hpar) as (wN & E & H).
  exists wN. split; [exact E|]. split.
  - intros i c Hi.
    apply slot_frame_bytes.
    + pose proof (ea_slots _ _ _ _ H i c Hi) as Hs.
      rewrite Z.add_0_l in Hs. exact Hs.
    + rewrite Forall_forall in Hwf. apply Hwf.
      eapply nth_error_In. exact Hi.
  - intros k Hk.
    assert (Hpar' : Forall parallel (firstn k cs)).
    { rewrite <- (firstn_skipn k cs) in Hpar.
      apply Forall_app in Hpar. apply Hpar. }
    assert (Hlen : size (firstn k cs) = Z.of_nat k).
    { unfold size. rewrite length_firstn. lia. }
    destruct (enqueue_all_from_start (firstn k cs) w0 Hinit) as (wk & Ek & Hk');
      [unfold size in *; lia | assumption |].
    exists wk. split; [exact Ek|].
    rewrite (ea_write_index _ _ _ _ Hk'), Hlen. reflexivity.
Qed.

Lemma in_enqueue_trace c slot body e :
  Forall (body_event c slot) body ->
  In e (EvWait semEmptyH :: EvWait mutexH :: body
          ++ [EvRelease mutexH; EvRelease semFullH]) ->
  is_sync e = true \/ body_event c slot e.
Proof.
  intros F [<-|[<-|H]]; [left; reflexivity | left; reflexivity |].
  apply in_app_or in H. destruct H as [H|[<-|[<-|[]]]].
  - right. rewrite Forall_forall in F. apply F. exact H.
  - left. reflexivity.
  - left. reflexivity.
Qed.

(** C2.  A call with more than [MAX_DETECTIONS] boxes returns normally;
    the slot then holds exactly the first [MAX_DETECTIONS] detections, in
    input order, the count field of the header is [MAX_DETECTIONS], and
    nothing is reported on the error stream on account of the detections
    (a message there can only come from an image of the wrong size). *)
Theorem truncation_to_max_detections (c : call) (w : world) :
  ready w ->
  parallel c ->
  MAX_DETECTIONS < size (boxes c) ->
  size (boxes c) <= INT_MAX ->
  exists w' t,
    enqueue c w = Ok tt w' /\
    load_bytes (shm w') (slot_offset (write_index w) + 16) 4
      = encode_int MAX_DETECTIONS /\
    load_bytes (shm w') (slot_offset (write_index w) + HEADER_SIZE) 4800
      = flat_map encode_detection (firstn (Z.to_nat MAX_DETECTIONS) (detections c)) /\
    length (firstn (Z.to_nat MAX_DETECTIONS) (detections c))
      = Z.to_nat MAX_DETECTIONS /\
    trace w' = trace w ++ t /\
    (In EvCerr t -> image_matches c = false).
Proof.
  intros Hr Hp Hbig Hint.
  destruct (enqueue_Ok c w Hr Hp) as (w' & E & H).
  pose proof (enqueued_slot_holds c w w' H) as Hs.
  destruct (enq_trace _ _ _ H) as (body & Ht & Fb).
  assert (Hw : well_formed c) by (split; assumption).
  assert (Hnum : num_of c = MAX_DETECTIONS).
  { unfold num_of. rewrite clamp_num_small by assumption. lia. }
  assert (Hlen : length (stored_detections c) = Z.to_nat MAX_DETECTIONS).
  { rewrite (stored_length c Hp). unfold size in Hbig. consts. lia. }
  eexists w', _. split; [exact E|]. split; [|split; [|split; [|split]]].
  - replace (slot_offset (write_index w) + 16)
      with (slot_offset (write_index w) + 4 * 4) by lia.
    rewrite (slot_header_word c _ _ 4 Hs) by lia.
    cbv beta iota delta [header_field]. rewrite Hnum. reflexivity.
  - rewrite (slot_detections_bytes c _ _ Hs Hw).
    unfold encode_detections. rewrite Hlen, Nat.sub_diag.
    cbn [repeat concat]. apply app_nil_r.
  - exact Hlen.
  - exact Ht.
  - intros Hin.
    destruct (in_enqueue_trace c _ body EvCerr Fb Hin) as [Hsync|Hb].
    + discriminate Hsync.
    + exact Hb.
Qed.

(** C3.  A call with fewer than [MAX_DETECTIONS] detections returns
    normally; every record from index [count] up to [MAX_DETECTIONS - 1]
    is then 24 zero bytes, and the whole detection region of the slot is
    the encoding of the input, whatever the slot held before. *)
Theorem zero_padding_of_detections (c : call) (w : world) :
  ready w ->
  parallel c ->
  size (boxes c) < MAX_DETECTIONS ->
  exists w',
    enqueue c w = Ok tt w' /\
    (forall k, size (boxes c) <= k < MAX_DETECTIONS ->
       load_bytes (shm w')
         (slot_offset (write_index w) + HEADER_SIZE + DET_RECORD_SIZE * k) 24
       = repeat 0 24) /\
    load_bytes (shm w') (slot_offset (write_index w) + HEADER_SIZE) 4800
      = encode_detections c.
Proof.
  intros Hr Hp Hsmall.
  destruct (enqueue_Ok c w Hr Hp) as (w' & E & H).
  pose proof (enqueued_slot_holds c w w' H) as Hs.
  assert (Hw : well_formed c) by (split; [assumption | consts; lia]).
  assert (Hnum : num_of c = size (boxes c)).
  { unfold num_of. rewrite clamp_num_small by (consts; lia). lia. }
  assert (Hpos : 0 <= size (boxes c)) by (unfold size; lia).
  exists w'. split; [exact E|]. split.
  - intros k Hk.
    rewrite (slot_record_bytes c _ _ k Hs) by lia.
    apply record_bytes_zero. lia.
  - apply slot_detections_bytes; assumption.
Qed.

(** C4.  A call whose image does not have [width*height*channels] bytes
    still returns normally: the image region of the slot is all zero,
    header and detections are the encoding of the input, and the queue has
    advanced as for any other frame. *)
Theorem image_size_mismatch_is_absorbed (c : call) (w : world) :
  ready w ->
  well_formed c ->
  total (frame640 c) * elemSize (frame640 c) <> INPUT_WIDTH * INPUT_HEIGHT * CHANNELS ->
  exists w',
    enqueue c w = Ok tt w' /\
    (forall j, 0 <= j < INPUT_WIDTH * INPUT_HEIGHT * CHANNELS ->
       shm w' (slot_offset (write_index w) + HEADER_SIZE + DETECTIONS_SIZE + j) = 0) /\
    load_bytes (shm w') (slot_offset (write_index w)) 4820
      = encode_header (frame_id c) (stored_count c) ++ encode_detections c /\
    write_index w' = (write_index w + 1) mod QUEUE_SIZE /\
    mutex w' = Unowned /\
    semEmpty w' = semEmpty w - 1.
Proof.
  intros Hr Hw Hne.
  destruct (enqueue_Ok c w Hr (proj1 Hw)) as (w' & E & H).
  pose proof (enqueued_slot_holds c w w' H) as Hs.
  exists w'. split; [exact E|]. split; [|split; [|split; [|split]]].
  - intros j Hj. rewrite (enq_image _ _ _ H j Hj).
    unfold image_byte, image_matches.
    replace (total (frame640 c) * elemSize (frame640 c) =? IMAGE_SIZE) with false;
      [reflexivity|].
    symmetry. apply Z.eqb_neq. exact Hne.
  - apply slot_frame_bytes; assumption.
  - rewrite (enq_write_index _ _ _ H).
    destruct Hr as (_ & _ & Hi). apply Z.rem_mod_nonneg; consts; lia.
  - exact (enq_mutex _ _ _ H).
  - exact (enq_semEmpty _ _ _ H).
Qed.

(** C5.  The addressing arithmetic: every scalar field is 4 bytes wide,
    the header is 20 bytes, a detection record 24, a slot
    20 + 200 * 24 + 640 * 640 * 3 = 1233620 bytes; slot [i] starts at
    [12 + i * SLOT_SIZE], the slots follow one another without a gap from
    the end of the control block to the end of the region, whose size is
    [12 + 5 * SLOT_SIZE]; and an enqueue puts header field [f] at byte
    [4 * f] of the slot, field [f] of record [k] at byte
    [20 + 24 * k + 4 * f], and the image at byte [20 + 200 * 24]. *)
Theorem layout_arithmetic :
  sizeof_int = 4 /\
  HEADER_SIZE = 5 * 4 /\
  DET_RECORD_SIZE = 6 * 4 /\
  SLOT_SIZE = 20 + 200 * 24 + 640 * 640 * 3 /\
  SLOT_SIZE = 1233620 /\
  SLOT_SIZE = HEADER_SIZE + MAX_DETECTIONS * DET_RECORD_SIZE + IMAGE_SIZE /\
  SHM_SIZE = 12 + 5 * SLOT_SIZE /\
  (forall i, slot_offset i = 12 + i * SLOT_SIZE) /\
  (forall i, slot_offset (i + 1) = slot_offset i + SLOT_SIZE) /\
  slot_offset QUEUE_SIZE = SHM_SIZE /\
  (forall c w, ready w -> parallel c ->
     exists w',
       enqueue c w = Ok tt w' /\
       (forall f, 0 <= f < 5 ->
          load_bytes (shm w') (slot_offset (write_index w) + 4 * f) 4
          = encode_int (header_field c f)) /\
       (forall k f, 0 <= k < MAX_DETECTIONS -> 0 <= f < 6 ->
          load_bytes (shm w') (slot_offset (write_index w) + 20 + 24 * k + 4 * f) 4
          = encode_int (record_field c k f)) /\
       (forall j, 0 <= j < IMAGE_SIZE ->
          shm w' (slot_offset (write_index w) + 20 + 200 * 24 + j)
          = image_byte c j)).
Proof.
  repeat (split; [reflexivity || (intros; consts; lia)|]).
  intros c w Hr Hp.
  destruct (enqueue_Ok c w Hr Hp) as (w' & E & H).
  pose proof (enqueued_slot_holds c w w' H) as Hs.
  exists w'. split; [exact E|]. split; [|split].
  - intros f Hf. apply slot_header_word; assumption.
  - intros k f Hk Hf. apply load_bytes_word. intros j Hj.
    apply (sh_records _ _ _ Hs); assumption.
  - intros j Hj. apply (sh_image _ _ _ Hs). assumption.
Qed.

(** ** Start-up *)

Lemma init_control_block_spec w :
  exec init_control_block w
    (fun _ w' =>
       write_index w' = 0 /\ read_index w' = 0 /\ total_written w' = 0 /\
       (forall a, ~ (0 <= a < 12) -> shm w' a = shm w a) /\
       semEmpty w' = semEmpty w /\ semFull w' = semFull w /\
       mutex w' = mutex w /\
       trace w' = trace w ++ [EvStore 0 4; EvStore 4 4; EvStore 8 4]).
Proof.
  unfold init_control_block.
  step_memcpy. step_memcpy.
  apply exec_memcpy; [consts; lia | consts; lia | world_simpl].
  split; [|split; [|split; [|split; [|repeat split]]]].
  - unfold write_index. rewrite (ctrl_stored _ 0 0); [reflexivity|].
    intros j Hj. cbn [shm]. consts. mem_read. f_equal. lia.
  - unfold read_index. rewrite (ctrl_stored _ 1 0); [reflexivity|].
    intros j Hj. cbn [shm]. consts. mem_read. f_equal. lia.
  - unfold total_written. rewrite (ctrl_stored _ 2 0); [reflexivity|].
    intros j Hj. cbn [shm]. consts. mem_read. f_equal. lia.
  - intros a Ha. consts. mem_read. reflexivity.
  - repeat rewrite <- app_assoc. reflexivity.
Qed.

Lemma main_startup_objects w :
  exists w',
    main_startup (Objects w) = Some (Ok tt w') /\
    write_index w' = 0 /\ read_index w' = 0 /\ total_written w' = 0 /\
    (forall a, ~ (0 <= a < 12) -> shm w' a = shm w a) /\
    semEmpty w' = semEmpty w /\ semFull w' = semFull w /\
    mutex w' = mutex w /\
    trace w' = trace w ++ [EvStore 0 4; EvStore 4 4; EvStore 8 4].
Proof.
  destruct (exec_Ok _ _ _ (init_control_block_spec w)) as ([] & w' & E & H).
  exists w'. split; [|exact H].
  unfold main_startup. cbn [create_objects]. rewrite E. reflexivity.
Qed.

Lemma main_startup_fresh :
  exists w',
    main_startup NoObjects = Some (Ok tt w') /\ initialised w' /\ semFull w' = 0.
Proof.
  destruct (exec_Ok _ _ _ (init_control_block_spec fresh_world))
    as ([] & w' & E & H).
  exists w'. split.
  - unfold main_startup. cbn [create_objects]. fold fresh_world.
    rewrite E. reflexivity.
  - destruct H as (H0 & _ & _ & _ & He & Hf & Hm & _).
    repeat split; assumption.
Qed.

(** C6, as the code has it.  The start-up code zeroes the control block
    whenever it obtains the mapping, whether the named objects were there
    before or not; it leaves the rest of the region and the kernel objects
    as it found them.  It stops before that only when the mapping cannot
    be created. *)
Theorem startup_zeroes_control_block_unconditionally :
  (forall w,
     exists w',
       main_startup (Objects w) = Some (Ok tt w') /\
       write_index w' = 0 /\ read_index w' = 0 /\ total_written w' = 0 /\
       (forall a, ~ (0 <= a < 12) -> shm w' a = shm w a) /\
       semEmpty w' = semEmpty w /\ semFull w' = semFull w /\
       mutex w' = mutex w) /\
  (exists w',
     main_startup NoObjects = Some (Ok tt w') /\
     write_index w' = 0 /\ read_index w' = 0 /\ total_written w' = 0 /\
     semEmpty w' = QUEUE_SIZE /\ semFull w' = 0 /\ mutex w' = Unowned) /\
  main_startup CannotMap = None.
Proof.
  split; [|split].
  - intros w.
    destruct (main_startup_objects w)
      as (w' & E & H0 & H1 & H2 & Hm & He & Hf & Hx & _).
    exists w'. repeat split; assumption.
  - destruct (exec_Ok _ _ _ (init_control_block_spec fresh_world))
      as ([] & w' & E & H0 & H1 & H2 & _ & He & Hf & Hm & _).
    exists w'. split.
    + unfold main_startup. cbn [create_objects]. fold fresh_world.
      rewrite E. reflexivity.
    + repeat split; assumption.
  - reflexivity.
Qed.

(** C6, as stated, fails: started on a region that is already in use
    (write index 2, two frames written), the producer zeroes the control
    block again. *)
Lemma startup_rezeroes_region_in_use :
  exists w',
    main_startup (Objects busy_world) = Some (Ok tt w') /\
    write_index busy_world = 2 /\ total_written busy_world = 2 /\
    write_index w' = 0 /\ total_written w' = 0.
Proof.
  destruct (main_startup_objects busy_world) as (w' & E & H0 & _ & H2 & _).
  exists w'. repeat split; try assumption; reflexivity.
Qed.

(** C7, as stated, fails: the start-up code stores to the [read_index]
    field, and on a region in use (read index 1) the value changes. *)
Lemma startup_overwrites_read_index :
  exists w',
    main_startup (Objects busy_world) = Some (Ok tt w') /\
    read_index busy_world = 1 /\
    read_index w' = 0 /\
    In (EvStore 4 4) (trace w').
Proof.
  destruct (main_startup_objects busy_world)
    as (w' & E & _ & H1 & _ & _ & _ & _ & _ & Ht).
  exists w'. repeat split; try assumption; try reflexivity.
  rewrite Ht. cbn. auto.
Qed.

(** C7, as the code has it.  An enqueue never stores to the [read_index]
    field and leaves its value as it was; the one producer-side write to
    it is the start-up initialisation, which sets it to 0. *)
Theorem read_index_written_only_at_startup :
  (forall c w, ready w -> parallel c ->
     exists w' t,
       enqueue c w = Ok tt w' /\
       read_index w' = read_index w /\
       trace w' = trace w ++ t /\
       (forall a n, In (EvStore a n) t -> a + n <= 4 \/ 8 <= a)) /\
  (forall w,
     exists w',
       main_startup (Objects w) = Some (Ok tt w') /\ read_index w' = 0) /\
  (exists w',
     main_startup NoObjects = Some (Ok tt w') /\ read_index w' = 0).
Proof.
  split; [|split].
  - intros c w Hr Hp.
    destruct (enqueue_Ok c w Hr Hp) as (w' & E & H).
    destruct (enq_trace _ _ _ H) as (body & Ht & Fb).
    destruct Hr as (_ & _ & Hi).
    destruct (slot_in_view _ Hi) as [Hs0 Hs1].
    eexists w', _. split; [exact E|]. split; [|split].
    + unfold read_index. apply ctrl_unchanged. intros j Hj.
      apply (enq_frame _ _ _ H); consts; lia.
    + exact Ht.
    + intros a n Hin.
      destruct (in_enqueue_trace c _ body _ Fb Hin) as [Hsync|Hb].
      * discriminate Hsync.
      * cbn [body_event] in Hb. lia.
  - intros w.
    destruct (main_startup_objects w) as (w' & E & _ & H1 & _).
    exists w'. split; assumption.
  - destruct (exec_Ok _ _ _ (init_control_block_spec fresh_world))
      as ([] & w' & E & _ & H1 & _).
    exists w'. split; [|exact H1].
    unfold main_startup. cbn [create_objects]. fold fresh_world.
    rewrite E. reflexivity.
Qed.

(** C8.  An enqueue that returns has performed, in this order: the wait
    on the empty-slot semaphore, the wait on the mutex, then accesses to
    the shared region and nothing else on the kernel objects, then the
    release of the mutex, and last the release of the full-slot
    semaphore.  All stores to the control block and to the slot therefore
    lie between the acquisition and the release of the mutex. *)
Theorem enqueue_step_order (c : call) (w : world) :
  ready w ->
  parallel c ->
  exists w' body,
    enqueue c w = Ok tt w' /\
    trace w' = trace w ++ [EvWait semEmptyH; EvWait mutexH] ++ body
                       ++ [EvRelease mutexH; EvRelease semFullH] /\
    Forall (fun e => is_sync e = false) body /\
    In (EvStore (slot_offset (write_index w)) 4) body /\
    In (EvStore 0 4) body /\
    In (EvStore 8 4) body.
Proof.
  intros Hr Hp.
  destruct (enqueue_Ok c w Hr Hp) as (w' & E & H).
  destruct (enq_stores _ _ _ H) as (body & Ht & Fb & I1 & I2 & I3).
  exists w', body. split; [exact E|]. split; [exact Ht|].
  split; [|split; [|split]]; try assumption.
  eapply Forall_impl; [|exact Fb].
  intros e He. destruct e; cbn in *; try reflexivity; contradiction.
Qed.

(** C9.  When the three vectors have the same length, an enqueue returns
    without ever leaving the bounds of a vector: every subscript it
    evaluates is below [min(boxes.size(), MAX_DETECTIONS)] and below the
    size of the vector it is applied to.  The count written to the header
    is computed from [boxes.size()] alone. *)
Theorem subscripts_in_bounds (c : call) (w : world) :
  ready w ->
  length (class_ids c) = length (boxes c) ->
  length (confs c) = length (boxes c) ->
  exists w' t,
    enqueue c w = Ok tt w' /\
    trace w' = trace w ++ t /\
    (forall v i, In (EvIndex v i) t ->
       0 <= i < Z.min (size (boxes c)) MAX_DETECTIONS /\ i < vec_size c v) /\
    load_bytes (shm w') (slot_offset (write_index w) + 16) 4
      = encode_int (if wrap32 (size (boxes c)) >? MAX_DETECTIONS
                    then MAX_DETECTIONS
                    else wrap32 (size (boxes c))).
Proof.
  intros Hr Hc Hf.
  assert (Hp : parallel c) by (split; assumption).
  destruct (enqueue_Ok c w Hr Hp) as (w' & E & H).
  pose proof (enqueued_slot_holds c w w' H) as Hs.
  destruct (enq_trace _ _ _ H) as (body & Ht & Fb).
  eexists w', _. split; [exact E|]. split; [exact Ht|]. split.
  - intros v i Hin.
    destruct (in_enqueue_trace c _ body _ Fb Hin) as [Hsync|Hb].
    + discriminate Hsync.
    + cbn [body_event] in Hb. destruct v; exact Hb.
  - replace (slot_offset (write_index w) + 16)
      with (slot_offset (write_index w) + 4 * 4) by lia.
    rewrite (slot_header_word c _ _ 4 Hs) by lia.
    reflexivity.
Qed.

(** C10.  An enqueue changes no byte of the region outside the
    [SLOT_SIZE] bytes of the slot at [slot_offset(write_index)] and the
    control-block fields [write_index] and [total_written]: every store it
    performs falls in one of these three ranges, every other byte keeps
    its value, and so does every byte of every other slot. *)
Theorem enqueue_touches_one_slot (c : call) (w : world) :
  ready w ->
  parallel c ->
  exists w' t,
    enqueue c w = Ok tt w' /\
    trace w' = trace w ++ t /\
    (forall a n, In (EvStore a n) t ->
       (slot_offset (write_index w) <= a /\
        a + n <= slot_offset (write_index w) + SLOT_SIZE) \/
       (a = 0 /\ n = 4) \/ (a = 8 /\ n = 4)) /\
    (forall a,
       ~ (slot_offset (write_index w) <= a < slot_offset (write_index w) + SLOT_SIZE) ->
       ~ (0 <= a < 4) -> ~ (8 <= a < 12) ->
       shm w' a = shm w a) /\
    (forall i j, 0 <= i < QUEUE_SIZE -> i <> write_index w -> 0 <= j < SLOT_SIZE ->
       shm w' (slot_offset i + j) = shm w (slot_offset i + j)).
Proof.
  intros Hr Hp.
  destruct (enqueue_Ok c w Hr Hp) as (w' & E & H).
  destruct (enq_trace _ _ _ H) as (body & Ht & Fb).
  eexists w', _. split; [exact E|]. split; [exact Ht|].
  split; [|split].
  - intros a n Hin.
    destruct (in_enqueue_trace c _ body _ Fb Hin) as [Hsync|Hb].
    + discriminate Hsync.
    + cbn [body_event] in Hb. lia.
  - apply (enq_frame _ _ _ H).
  - intros i j Hi Hne Hj.
    destruct Hr as (_ & _ & Hw).
    apply (enq_frame _ _ _ H); consts; nia.
Qed.

(** * The properties at concrete inputs *)

Lemma ready_fresh_world : ready fresh_world.
Proof.
  unfold ready. split; [reflexivity|]. split; [reflexivity|].
  vm_compute. split; [discriminate | reflexivity].
Defined.

Lemma parallel_scenario_call : parallel scenario_call.
Proof. split; reflexivity. Defined.

Lemma parallel_crowded_call : parallel crowded_call.
Proof. split; reflexivity. Defined.

Lemma parallel_small_image_call : parallel small_image_call.
Proof. split; reflexivity. Defined.

(** The scenario of the design document, run: the header reports frame 1
    with 2 detections, record 0 is [(3, 0.91, 10, 20, 30, 40)], record 2 is
    zero, the image is gray and the write index has moved to 1. *)
Example scenario_slot :
  match enqueue scenario_call fresh_world with
  | Ok _ w' =>
      load_bytes (shm w') 12 20
        = [1;0;0;0; 128;2;0;0; 128;2;0;0; 3;0;0;0; 2;0;0;0] /\
      load_bytes (shm w') 32 24
        = [3;0;0;0; 195;245;104;63; 10;0;0;0; 20;0;0;0; 30;0;0;0; 40;0;0;0] /\
      load_bytes (shm w') 80 24 = repeat 0 24 /\
      load_bytes (shm w') 4832 3 = [114; 114; 114] /\
      shm w' (12 + SLOT_SIZE - 1) = 114 /\
      write_index w' = 1 /\ read_index w' = 0 /\ total_written w' = 1 /\
      semEmpty w' = 4 /\ semFull w' = 1
  | _ => False
  end.
Proof. vm_compute. repeat split. Qed.

(** With no empty slot left, the call does not return. *)
Example full_queue_blocks :
  enqueue scenario_call (set_semEmpty 0 fresh_world) = Blocked.
Proof. reflexivity. Qed.

(** Vectors of different lengths take the call out of defined behaviour. *)
Example unequal_vectors_undefined :
  enqueue (mkCall 1 gray_image [3] [] [mkRect 1 2 3 4]) fresh_world = Undefined.
Proof. vm_compute. reflexivity. Qed.

Lemma initialised_fresh_world : initialised fresh_world.
Proof. repeat split. Defined.

Lemma well_formed_three_calls : Forall well_formed three_calls.
Proof.
  unfold three_calls.
  apply Forall_cons;
    [split; [exact parallel_scenario_call | vm_compute; discriminate]|].
  apply Forall_cons;
    [split; [exact parallel_crowded_call | vm_compute; discriminate]|].
  apply Forall_cons;
    [split; [exact parallel_small_image_call | vm_compute; discriminate]|].
  apply Forall_nil.
Defined.

(** C1 at three calls on the fresh queue. *)
Lemma fifo_slots_and_write_index_witness :
  initialised fresh_world /\
  size three_calls <= QUEUE_SIZE /\
  Forall well_formed three_calls /\
  exists wN,
    enqueue_all three_calls fresh_world = Ok tt wN /\
    load_bytes (shm wN) (slot_offset 1) 4820
      = encode_header 2 200 ++ encode_detections crowded_call /\
    write_index wN = 3.
Proof.
  assert (Hn : size three_calls <= QUEUE_SIZE) by (vm_compute; discriminate).
  destruct (fifo_slots_and_write_index three_calls fresh_world
              initialised_fresh_world Hn well_formed_three_calls)
    as (wN & E & Hslots & Hidx).
  split; [exact initialised_fresh_world|].
  split; [exact Hn|]. split; [exact well_formed_three_calls|].
  exists wN. split; [exact E|]. split.
  - exact (Hslots 1%nat crowded_call eq_refl).
  - destruct (Hidx 3%nat) as (wk & Ek & Hk); [vm_compute; lia|].
    cbn [firstn three_calls] in Ek. unfold three_calls in E.
    rewrite E in Ek. injection Ek as <-. exact Hk.
Defined.

(** C2 at 201 detections. *)
Lemma truncation_to_max_detections_witness :
  ready fresh_world /\ parallel crowded_call /\
  MAX_DETECTIONS < size (boxes crowded_call) /\
  size (boxes crowded_call) <= INT_MAX /\
  exists w',
    enqueue crowded_call fresh_world = Ok tt w' /\
    load_bytes (shm w') 28 4 = encode_int 200.
Proof.
  assert (Hb : MAX_DETECTIONS < size (boxes crowded_call)) by reflexivity.
  assert (Hi : size (boxes crowded_call) <= INT_MAX)
    by (vm_compute; discriminate).
  destruct (truncation_to_max_detections crowded_call fresh_world
              ready_fresh_world parallel_crowded_call Hb Hi)
    as (w' & t & E & Hc & _).
  split; [exact ready_fresh_world|]. split; [exact parallel_crowded_call|].
  split; [exact Hb|]. split; [exact Hi|].
  exists w'. split; [exact E | exact Hc].
Defined.

(** C3 at two detections. *)
Lemma zero_padding_of_detections_witness :
  ready fresh_world /\ parallel scenario_call /\
  size (boxes scenario_call) < MAX_DETECTIONS /\
  exists w',
    enqueue scenario_call fresh_world = Ok tt w' /\
    load_bytes (shm w') (12 + 20 + 24 * 2) 24 = repeat 0 24.
Proof.
  assert (Hs : size (boxes scenario_call) < MAX_DETECTIONS) by reflexivity.
  destruct (zero_padding_of_detections scenario_call fresh_world
              ready_fresh_world parallel_scenario_call Hs)
    as (w' & E & Hz & _).
  split; [exact ready_fresh_world|]. split; [exact parallel_scenario_call|].
  split; [exact Hs|].
  exists w'. split; [exact E|].
  apply (Hz 2). vm_compute. split; [discriminate | reflexivity].
Defined.

(** C4 at a 2x2 image. *)
Lemma image_size_mismatch_is_absorbed_witness :
  ready fresh_world /\ well_formed small_image_call /\
  total (frame640 small_image_call) * elemSize (frame640 small_image_call)
    <> INPUT_WIDTH * INPUT_HEIGHT * CHANNELS /\
  exists w',
    enqueue small_image_call fresh_world = Ok tt w' /\
    shm w' (12 + 20 + 4800) = 0 /\
    write_index w' = 1.
Proof.
  assert (Hw : well_formed small_image_call).
  { split; [exact parallel_small_image_call|]. vm_compute. discriminate. }
  assert (Hne : total (frame640 small_image_call) * elemSize (frame640 small_image_call)
                <> INPUT_WIDTH * INPUT_HEIGHT * CHANNELS)
    by (vm_compute; discriminate).
  destruct (image_size_mismatch_is_absorbed small_image_call fresh_world
              ready_fresh_world Hw Hne)
    as (w' & E & Hz & _ & Hi & _).
  split; [exact ready_fresh_world|]. split; [exact Hw|]. split; [exact Hne|].
  exists w'. split; [exact E|]. split.
  - apply (Hz 0). vm_compute. split; [discriminate | reflexivity].
  - exact Hi.
Defined.

(** C5 at the design document's scenario: the count field is the header
    word at byte 16 of slot 0. *)
Lemma layout_arithmetic_witness :
  ready fresh_world /\ parallel scenario_call /\
  slot_offset 4 = 12 + 4 * 1233620 /\
  exists w',
    enqueue scenario_call fresh_world = Ok tt w' /\
    load_bytes (shm w') (12 + 4 * 4) 4 = encode_int 2.
Proof.
  destruct layout_arithmetic
    as (_ & _ & _ & _ & _ & _ & _ & Hoff & _ & _ & Hfields).
  destruct (Hfields scenario_call fresh_world ready_fresh_world
              parallel_scenario_call) as (w' & E & Hh & _).
  split; [exact ready_fresh_world|]. split; [exact parallel_scenario_call|].
  split; [exact (Hoff 4)|].
  exists w'. split; [exact E|].
  apply (Hh 4). vm_compute. split; [discriminate | reflexivity].
Defined.

(** C6 at the region in use. *)
Lemma startup_zeroes_control_block_unconditionally_witness :
  exists w',
    main_startup (Objects busy_world) = Some (Ok tt w') /\
    write_index w' = 0 /\ read_index w' = 0 /\ total_written w' = 0 /\
    semEmpty w' = 4 /\ semFull w' = 1.
Proof.
  destruct startup_zeroes_control_block_unconditionally as (H & _ & _).
  destruct (H busy_world) as (w' & E & H0 & H1 & H2 & _ & He & Hf & _).
  exists w'. repeat split; assumption.
Defined.

(** C7 at the design document's scenario. *)
Lemma read_index_written_only_at_startup_witness :
  ready busy_world /\ parallel scenario_call /\
  exists w',
    enqueue scenario_call busy_world = Ok tt w' /\
    read_index w' = 1.
Proof.
  assert (Hr : ready busy_world).
  { split; [reflexivity|]. split; [reflexivity|].
    vm_compute. split; [discriminate | reflexivity]. }
  destruct read_index_written_only_at_startup as (H & _ & _).
  destruct (H scenario_call busy_world Hr parallel_scenario_call)
    as (w' & t & E & Hi & _).
  split; [exact Hr|]. split; [exact parallel_scenario_call|].
  exists w'. split; [exact E | exact Hi].
Defined.

(** C8 at the design document's scenario. *)
Lemma enqueue_step_order_witness :
  ready fresh_world /\ parallel scenario_call /\
  exists w' body,
    enqueue scenario_call fresh_world = Ok tt w' /\
    trace w' = [EvWait semEmptyH; EvWait mutexH] ++ body
                 ++ [EvRelease mutexH; EvRelease semFullH] /\
    Forall (fun e => is_sync e = false) body.
Proof.
  destruct (enqueue_step_order scenario_call fresh_world
              ready_fresh_world parallel_scenario_call)
    as (w' & body & E & Ht & Fb & _).
  split; [exact ready_fresh_world|]. split; [exact parallel_scenario_call|].
  exists w', body. split; [exact E|]. split; [exact Ht | exact Fb].
Defined.

(** C9 at 201 detections. *)
Lemma subscripts_in_bounds_witness :
  ready fresh_world /\
  length (class_ids crowded_call) = length (boxes crowded_call) /\
  length (confs crowded_call) = length (boxes crowded_call) /\
  exists w' t,
    enqueue crowded_call fresh_world = Ok tt w' /\
    trace w' = t /\
    (forall v i, In (EvIndex v i) t -> 0 <= i < 200).
Proof.
  destruct (subscripts_in_bounds crowded_call fresh_world
              ready_fresh_world eq_refl eq_refl)
    as (w' & t & E & Ht & Hb & _).
  split; [exact ready_fresh_world|]. split; [reflexivity|].
  split; [reflexivity|].
  exists w', t. split; [exact E|]. split; [exact Ht|].
  intros v i Hin. exact (proj1 (Hb v i Hin)).
Defined.

(** C10 at the design document's scenario: slot 1 is not touched. *)
Lemma enqueue_touches_one_slot_witness :
  ready fresh_world /\ parallel scenario_call /\
  exists w',
    enqueue scenario_call fresh_world = Ok tt w' /\
    shm w' (slot_offset 1) = shm fresh_world (slot_offset 1).
Proof.
  destruct (enqueue_touches_one_slot scenario_call fresh_world
              ready_fresh_world parallel_scenario_call)
    as (w' & t & E & _ & _ & _ & Hs).
  split; [exact ready_fresh_world|]. split; [exact parallel_scenario_call|].
  exists w'. split; [exact E|].
  clear E. rewrite <- (Z.add_0_r (slot_offset 1)).
  apply (Hs 1 0); vm_compute.
  - split; [intros H; discriminate H | reflexivity].
  - intros H; discriminate H.
  - split; [intros H; discriminate H | reflexivity].
Defined.

(** * Further properties of the producer *)

(** ** More arithmetic *)

Lemma wrap32_add_l a b : wrap32 (wrap32 a + b) = wrap32 (a + b).
Proof.
  unfold wrap32. f_equal.
  replace ((a + 2147483648) mod 4294967296 - 2147483648 + b + 2147483648)
    with ((a + 2147483648) mod 4294967296 + b) by lia.
  rewrite Z.add_mod_idemp_l by lia. f_equal. lia.
Qed.

Lemma ctrl_range w k : INT_MIN <= ctrl w k <= INT_MAX.
Proof. unfold ctrl, int_of_bytes. cbv zeta. apply wrap32_range. Qed.

Lemma wrap32_ctrl w k : wrap32 (ctrl w k) = ctrl w k.
Proof. apply wrap32_id. apply ctrl_range. Qed.

Lemma slots_disjoint i j a :
  0 <= i < QUEUE_SIZE -> 0 <= j < QUEUE_SIZE -> i <> j ->
  slot_offset i <= a < slot_offset i + SLOT_SIZE ->
  ~ (slot_offset j <= a < slot_offset j + SLOT_SIZE).
Proof. intros Hi Hj Hne Ha. consts. lia. Qed.

(** ** Cyclic use of the slots *)

Lemma enqueue_all_cyclic cs : forall w,
  0 <= write_index w < QUEUE_SIZE ->
  mutex w = Unowned ->
  size cs <= semEmpty w ->
  size cs <= QUEUE_SIZE ->
  Forall parallel cs ->
  exec (enqueue_all cs) w (fun _ w' => enqueued_cyclic cs w w').
Proof.
  induction cs as [|c rest IH]; intros w Hidx Hmut Hsem Hn Hpar.
  - apply exec_ret. constructor.
    + change (size (@nil call)) with 0. rewrite Z.add_0_r.
      symmetry. apply Z.mod_small. assumption.
    + change (size (@nil call)) with 0. rewrite Z.add_0_r.
      symmetry. apply wrap32_ctrl.
    + change (size (@nil call)) with 0. lia.
    + intros _. change (size (@nil call)) with 0. lia.
    + assumption.
    + intros [|i] c0 E; discriminate E.
    + reflexivity.
  - rewrite size_cons in Hsem, Hn.
    assert (Hrest : 0 <= size rest) by (unfold size; lia).
    inversion Hpar as [|c' rest' Hc Hrp]; subst c' rest'.
    cbn [enqueue_all]. apply exec_bind.
    eapply exec_conseq.
    { apply (enqueue_spec c w); [|assumption].
      repeat split; try assumption; lia. }
    intros u w1 H1. cbv beta.
    pose proof (enqueued_slot_holds c w w1 H1) as Hslot.
    destruct H1 as [e1 e2 e3 _ _ _ e7 e8 e9 _].
    rewrite Z.rem_mod_nonneg in e7 by (consts; lia).
    assert (Hidx1 : 0 <= write_index w1 < QUEUE_SIZE).
    { rewrite e7. apply Z.mod_pos_bound. consts. lia. }
    eapply exec_conseq.
    { apply (IH w1); try assumption; lia. }
    intros u2 w2 [f1 f2 f3 f4 f5 f6 f7]. cbv beta.
    constructor.
    + rewrite f1, e7, size_cons. rewrite Z.add_mod_idemp_l by (consts; lia).
      f_equal. lia.
    + rewrite f2. fold (total_written w1). rewrite e8, size_cons.
      rewrite wrap32_add_l. f_equal. lia.
    + rewrite f3, e1, size_cons. lia.
    + intros Hinv. rewrite size_cons.
      assert (e2' : semFull w1 = semFull w + 1).
      { rewrite e2.
        replace (semFull w + 1 <=? QUEUE_SIZE) with true; [reflexivity|].
        symmetry. apply Z.leb_le. lia. }
      rewrite f4 by lia. lia.
    + assumption.
    + intros [|i] c0 E.
      * injection E as <-. change (Z.of_nat 0) with 0. rewrite Z.add_0_r.
        rewrite Z.mod_small by assumption.
        apply (slot_holds_ext c (shm w1)); [|assumption].
        intros a Ha. apply f7; [|consts; lia|consts; lia].
        intros i Hi. rewrite e7.
        rewrite Z.add_mod_idemp_l by (consts; lia).
        apply (slots_disjoint (write_index w)); try assumption.
        -- apply Z.mod_pos_bound. consts. lia.
        -- intros Heq. revert Heq. consts. intros Heq.
           Z.div_mod_to_equations. lia.
      * replace ((write_index w + Z.of_nat (S i)) mod QUEUE_SIZE)
          with ((write_index w1 + Z.of_nat i) mod QUEUE_SIZE).
        -- apply f6. exact E.
        -- rewrite e7. rewrite Z.add_mod_idemp_l by (consts; lia).
           f_equal. lia.
    + intros a Ha Hc0 Hc2. rewrite size_cons in Ha.
      rewrite f7; try assumption.
      * apply e9; try assumption.
        specialize (Ha 0). rewrite Z.add_0_r, Z.mod_small in Ha by (assumption || lia).
        apply Ha. lia.
      * intros i Hi. rewrite e7.
        rewrite Z.add_mod_idemp_l by (consts; lia).
        replace (write_index w + 1 + i) with (write_index w + (i + 1)) by lia.
        apply Ha. lia.
Qed.

Lemma enqueue_all_Ok_cyclic cs w :
  0 <= write_index w < QUEUE_SIZE ->
  mutex w = Unowned ->
  size cs <= semEmpty w ->
  size cs <= QUEUE_SIZE ->
  Forall parallel cs ->
  exists w', enqueue_all cs w = Ok tt w' /\ enqueued_cyclic cs w w'.
Proof.
  intros Hi Hm Hs Hn Hp.
  destruct (exec_Ok _ _ _ (enqueue_all_cyclic cs w Hi Hm Hs Hn Hp))
    as ([] & w' & E & H).
  exists w'. split; assumption.
Qed.

Lemma well_formed_parallel cs : Forall well_formed cs -> Forall parallel cs.
Proof.
  intros H. eapply Forall_impl; [|exact H]. intros c [Hp _]. exact Hp.
Qed.

(** X1.  Up to [QUEUE_SIZE] enqueues into free slots, from any write
    index: call [i] lands in slot [(write_index + i) mod QUEUE_SIZE], so
    the slots after the last one are slot 0, 1, ...; the write index ends
    at [(write_index + N) mod QUEUE_SIZE], [total_written] has counted the
    [N] calls and the empty count has dropped by [N]. *)
Theorem enqueue_all_wraps_around (cs : list call) (w : world) :
  0 <= write_index w < QUEUE_SIZE ->
  mutex w = Unowned ->
  size cs <= semEmpty w ->
  size cs <= QUEUE_SIZE ->
  Forall well_formed cs ->
  exists w',
    enqueue_all cs w = Ok tt w' /\
    write_index w' = (write_index w + size cs) mod QUEUE_SIZE /\
    total_written w' = wrap32 (total_written w + size cs) /\
    semEmpty w' = semEmpty w - size cs /\
    (forall i c, nth_error cs i = Some c ->
       load_bytes (shm w')
         (slot_offset ((write_index w + Z.of_nat i) mod QUEUE_SIZE)) 4820
       = encode_header (frame_id c) (stored_count c) ++ encode_detections c).
Proof.
  intros Hi Hm Hs Hn Hwf.
  destruct (enqueue_all_Ok_cyclic cs w Hi Hm Hs Hn (well_formed_parallel cs Hwf))
    as (w' & E & H).
  exists w'. split; [exact E|].
  split; [exact (ec_write_index _ _ _ H)|].
  split; [exact (ec_total_written _ _ _ H)|].
  split; [exact (ec_semEmpty _ _ _ H)|].
  intros i c Hc. apply slot_frame_bytes.
  - exact (ec_slots _ _ _ H i c Hc).
  - rewrite Forall_forall in Hwf. apply Hwf. eapply nth_error_In. exact Hc.
Qed.

Lemma enqueue_blocked c w : semEmpty w <= 0 -> enqueue c w = Blocked.
Proof.
  intros H. unfold enqueue, write_frame, bind, WaitForSingleObject.
  replace (0 <? semEmpty w) with false; [reflexivity|].
  symmetry. apply Z.ltb_ge. exact H.
Qed.

Lemma enqueue_all_blocks_when_full_aux (cs : list call) (w : world) :
  0 <= write_index w < QUEUE_SIZE ->
  mutex w = Unowned ->
  0 <= semEmpty w < size cs ->
  Forall parallel cs ->
  enqueue_all cs w = Blocked.
Proof.
  revert w. induction cs as [|c rest IH]; intros w Hi Hm Hs Hp.
  - change (size (@nil call)) with 0 in Hs. lia.
  - rewrite size_cons in Hs.
    inversion Hp as [|c' rest' Hc Hrp]; subst c' rest'.
    cbn [enqueue_all]. unfold bind.
    destruct (Z.eq_dec (semEmpty w) 0) as [H0|Hpos].
    + rewrite enqueue_blocked by lia. reflexivity.
    + destruct (enqueue_Ok c w) as (w1 & E & H1); [|assumption|].
      { repeat split; try assumption; lia. }
      rewrite E. apply IH; try assumption.
      * rewrite (enq_write_index _ _ _ H1).
        apply Z.rem_bound_pos; consts; lia.
      * exact (enq_mutex _ _ _ H1).
      * rewrite (enq_semEmpty _ _ _ H1). lia.
Qed.

(** X2.  Backpressure: handed more frames than there are empty slots,
    the producer fills the empty slots, one call each, and then does not
    return from the next call; no occupied slot is overwritten instead. *)
Theorem enqueue_all_blocks_when_full (cs : list call) (w : world) :
  0 <= write_index w < QUEUE_SIZE ->
  mutex w = Unowned ->
  0 <= semEmpty w <= QUEUE_SIZE ->
  semEmpty w < size cs ->
  Forall parallel cs ->
  (exists w1,
     enqueue_all (firstn (Z.to_nat (semEmpty w)) cs) w = Ok tt w1 /\
     semEmpty w1 = 0 /\
     write_index w1 = (write_index w + semEmpty w) mod QUEUE_SIZE) /\
  enqueue_all cs w = Blocked.
Proof.
  intros Hi Hm He Hlt Hp. split.
  - assert (Hlen : size (firstn (Z.to_nat (semEmpty w)) cs) = semEmpty w).
    { unfold size in *. rewrite length_firstn. lia. }
    assert (Hp' : Forall parallel (firstn (Z.to_nat (semEmpty w)) cs)).
    { rewrite <- (firstn_skipn (Z.to_nat (semEmpty w)) cs) in Hp.
      apply Forall_app in Hp. apply Hp. }
    destruct (enqueue_all_Ok_cyclic (firstn (Z.to_nat (semEmpty w)) cs) w)
      as (w1 & E & H); try assumption; try lia.
    exists w1. split; [exact E|]. split.
    + rewrite (ec_semEmpty _ _ _ H). lia.
    + rewrite (ec_write_index _ _ _ H), Hlen. reflexivity.
  - apply enqueue_all_blocks_when_full_aux; try assumption. lia.
Qed.

(** X3.  The queue invariant (write index a slot number, mutex free,
    both counts non-negative and adding up to [QUEUE_SIZE]) holds after
    the start-up on a system without objects, with all slots empty, and
    every enqueue that finds an empty slot keeps it while moving one slot
    from the empty count to the full count. *)
Theorem queue_invariant_kept :
  (exists w0,
     main_startup NoObjects = Some (Ok tt w0) /\
     queue_inv w0 /\ semEmpty w0 = QUEUE_SIZE) /\
  (forall c w,
     queue_inv w -> 0 < semEmpty w -> parallel c ->
     exists w',
       enqueue c w = Ok tt w' /\
       queue_inv w' /\
       semEmpty w' = semEmpty w - 1 /\
       semFull w' = semFull w + 1).
Proof.
  split.
  - destruct main_startup_fresh as (w0 & E & (Hw & He & Hm) & Hf).
    exists w0. split; [exact E|]. split; [|exact He].
    unfold queue_inv. rewrite Hw, He, Hf. consts.
    repeat split; try assumption; lia.
  - intros c w (Hi & Hm & He & Hf & Hsum) Hpos Hp.
    destruct (enqueue_Ok c w) as (w' & E & H); [|assumption|].
    { repeat split; try assumption; lia. }
    exists w'. split; [exact E|].
    assert (Hfull : semFull w' = semFull w + 1).
    { rewrite (enq_semFull _ _ _ H).
      replace (semFull w + 1 <=? QUEUE_SIZE) with true; [reflexivity|].
      symmetry. apply Z.leb_le. lia. }
    pose proof (enq_semEmpty _ _ _ H) as Hempty.
    split; [|split; assumption].
    unfold queue_inv. rewrite Hfull, Hempty, (enq_write_index _ _ _ H).
    split; [apply Z.rem_bound_pos; consts; lia|].
    split; [exact (enq_mutex _ _ _ H)|]. lia.
Qed.

Lemma slot_holds_determined c m1 m2 slot o :
  slot_holds c m1 slot -> slot_holds c m2 slot ->
  0 <= o < SLOT_SIZE ->
  m1 (slot + o) = m2 (slot + o).
Proof.
  intros H1 H2 Ho.
  destruct (Z_lt_ge_dec o HEADER_SIZE) as [Hh|Hh].
  - replace (slot + o) with (slot + 4 * (o / 4) + o mod 4)
      by (Z.div_mod_to_equations; lia).
    assert (0 <= o / 4 < 5) by (consts; Z.div_mod_to_equations; lia).
    assert (0 <= o mod 4 < 4) by (apply Z.mod_pos_bound; lia).
    rewrite (sh_header _ _ _ H1), (sh_header _ _ _ H2) by assumption.
    reflexivity.
  - destruct (Z_lt_ge_dec o (HEADER_SIZE + DETECTIONS_SIZE)) as [Hd|Hd].
    + set (r := o - HEADER_SIZE).
      replace (slot + o)
        with (slot + HEADER_SIZE + DET_RECORD_SIZE * (r / 24)
              + 4 * ((r mod 24) / 4) + (r mod 24) mod 4)
        by (unfold r; consts; Z.div_mod_to_equations; lia).
      assert (0 <= r / 24 < MAX_DETECTIONS)
        by (unfold r; consts; Z.div_mod_to_equations; lia).
      assert (0 <= (r mod 24) / 4 < 6) by (Z.div_mod_to_equations; lia).
      assert (0 <= (r mod 24) mod 4 < 4) by (apply Z.mod_pos_bound; lia).
      rewrite (sh_records _ _ _ H1), (sh_records _ _ _ H2) by assumption.
      reflexivity.
    + replace (slot + o)
        with (slot + HEADER_SIZE + DETECTIONS_SIZE
              + (o - HEADER_SIZE - DETECTIONS_SIZE)) by lia.
      rewrite (sh_image _ _ _ H1), (sh_image _ _ _ H2) by (consts; lia).
      reflexivity.
Qed.

(** X4.  An enqueue overwrites its slot completely: whatever the region
    held before, the [SLOT_SIZE] bytes of the slot afterwards depend on
    the call alone, so nothing of an earlier frame shows through. *)
Theorem slot_fully_overwritten (c : call) (w1 w2 : world) :
  ready w1 -> ready w2 -> parallel c ->
  write_index w1 = write_index w2 ->
  exists w1' w2',
    enqueue c w1 = Ok tt w1' /\
    enqueue c w2 = Ok tt w2' /\
    (forall o, 0 <= o < SLOT_SIZE ->
       shm w1' (slot_offset (write_index w1) + o)
       = shm w2' (slot_offset (write_index w1) + o)).
Proof.
  intros Hr1 Hr2 Hp Hidx.
  destruct (enqueue_Ok c w1 Hr1 Hp) as (w1' & E1 & H1).
  destruct (enqueue_Ok c w2 Hr2 Hp) as (w2' & E2 & H2).
  exists w1', w2'. split; [exact E1|]. split; [exact E2|].
  intros o Ho.
  apply (slot_holds_determined c); try assumption.
  - exact (enqueued_slot_holds c w1 w1' H1).
  - rewrite Hidx. exact (enqueued_slot_holds c w2 w2' H2).
Qed.

(** X5.  An image of exactly [640*640*3] bytes is copied into the slot
    byte for byte, after the detection array, and nothing is written to
    the error stream. *)
Theorem image_copied_verbatim (c : call) (w : world) :
  ready w -> parallel c ->
  total (frame640 c) * elemSize (frame640 c) = INPUT_WIDTH * INPUT_HEIGHT * CHANNELS ->
  exists w' t,
    enqueue c w = Ok tt w' /\
    (forall j, 0 <= j < INPUT_WIDTH * INPUT_HEIGHT * CHANNELS ->
       shm w' (slot_offset (write_index w) + HEADER_SIZE + DETECTIONS_SIZE + j)
       = data (frame640 c) j) /\
    trace w' = trace w ++ t /\
    ~ In EvCerr t.
Proof.
  intros Hr Hp Hsz.
  destruct (enqueue_Ok c w Hr Hp) as (w' & E & H).
  destruct (enq_trace _ _ _ H) as (body & Ht & Fb).
  assert (Hm : image_matches c = true).
  { unfold image_matches. apply Z.eqb_eq. exact Hsz. }
  eexists w', _. split; [exact E|]. split; [|split; [exact Ht|]].
  - intros j Hj. rewrite (enq_image _ _ _ H j Hj).
    unfold image_byte. rewrite Hm. reflexivity.
  - intros Hin.
    destruct (in_enqueue_trace c _ body EvCerr Fb Hin) as [Hs|Hb].
    + discriminate Hs.
    + cbn [body_event] in Hb. rewrite Hm in Hb. discriminate Hb.
Qed.

(** ** Leaving defined behaviour *)

Lemma undefined_bind {A B} (m : M A) (f : A -> M B) w :
  exec m w (fun a w' => f a w' = Undefined) -> bind m f w = Undefined.
Proof. unfold exec, bind. destruct (m w); intros H; [exact H | contradiction..]. Qed.

Lemma in_view_false p n : p < 0 \/ SHM_SIZE < p + n -> in_view p n = false.
Proof.
  intros H. unfold in_view. apply andb_false_iff.
  destruct H; [left; apply Z.leb_gt | right; apply Z.leb_gt]; assumption.
Qed.

Lemma memcpy_undefined p src n w :
  p < 0 \/ SHM_SIZE < p + n -> memcpy p src n w = Undefined.
Proof. intros H. unfold memcpy. rewrite in_view_false by assumption. reflexivity. Qed.

(** X7.  The write index is taken from the shared region unchecked: when
    it is not a slot number, the first store of the header already falls
    outside the mapped view. *)
Theorem corrupt_write_index_is_undefined (c : call) (w : world) :
  0 < semEmpty w ->
  mutex w = Unowned ->
  ~ (0 <= write_index w < QUEUE_SIZE) ->
  enqueue c w = Undefined.
Proof.
  intros Hs Hm Hbad.
  unfold enqueue, write_frame.
  apply undefined_bind. apply exec_wait_semEmpty; [assumption|]. world_simpl.
  apply undefined_bind. apply exec_wait_mutex; [assumption|]. world_simpl.
  apply undefined_bind. apply exec_load_int; [consts; lia | consts; lia |].
  world_simpl.
  change (int_of_bytes (shm w (0 * sizeof_int)) (shm w (0 * sizeof_int + 1))
            (shm w (0 * sizeof_int + 2)) (shm w (0 * sizeof_int + 3)))
    with (write_index w).
  unfold bind at 1. rewrite memcpy_undefined; [reflexivity|].
  consts. lia.
Qed.

Lemma at_undefined {A} name (v : list A) i w :
  size v <= i -> at_ name v i w = Undefined.
Proof.
  intros H. unfold at_, size in *.
  destruct (0 <=? i); [|reflexivity].
  replace (nth_error v (Z.to_nat i)) with (@None A); [reflexivity|].
  symmetry. apply nth_error_None. lia.
Qed.

Lemma write_detection_returns c slot i p w :
  0 <= i < MAX_DETECTIONS ->
  0 <= slot -> slot + SLOT_SIZE <= SHM_SIZE ->
  p = slot + HEADER_SIZE + DET_RECORD_SIZE * i ->
  (i < num_of c -> i < size (class_ids c) /\ i < size (confs c)) ->
  exec (write_detection (class_ids c) (confs c) (boxes c) (num_of c) i p) w
    (fun p' _ => p' = p + DET_RECORD_SIZE).
Proof.
  intros Hi Hs0 Hs1 Hp Hlen.
  pose proof (clamp_num_le_size (boxes c)) as Hsz.
  unfold write_detection.
  destruct (i <? num_of c) eqn:E.
  - apply Z.ltb_lt in E. destruct (Hlen E) as [Hc Hf]. unfold num_of in E.
    step_at 0. step_memcpy. step_at 0. step_memcpy.
    step_at (mkRect 0 0 0 0). step_memcpy.
    step_at (mkRect 0 0 0 0). step_memcpy.
    step_at (mkRect 0 0 0 0). step_memcpy.
    step_at (mkRect 0 0 0 0). step_memcpy.
    apply exec_ret. consts. lia.
  - step_memcpy. apply exec_ret. consts. lia.
Qed.

Lemma write_detection_undefined c slot i p w :
  0 <= i < num_of c ->
  0 <= slot -> slot + SLOT_SIZE <= SHM_SIZE ->
  p = slot + HEADER_SIZE + DET_RECORD_SIZE * i ->
  size (class_ids c) <= i \/ size (confs c) <= i ->
  write_detection (class_ids c) (confs c) (boxes c) (num_of c) i p w = Undefined.
Proof.
  intros Hi Hs0 Hs1 Hp Hshort.
  pose proof (clamp_num_le_max (boxes c)) as Hmax. unfold num_of in Hi.
  unfold write_detection, num_of.
  replace (i <? clamp_num (boxes c)) with true by (symmetry; apply Z.ltb_lt; lia).
  destruct (Z_lt_ge_dec i (size (class_ids c))) as [Hc|Hc].
  - assert (Hf : size (confs c) <= i) by lia.
    apply undefined_bind. apply (exec_at _ _ _ 0); [lia | world_simpl].
    apply undefined_bind. apply exec_memcpy; [consts; lia | consts; lia | world_simpl].
    unfold bind at 1. rewrite at_undefined by assumption. reflexivity.
  - unfold bind at 1. rewrite at_undefined by lia. reflexivity.
Qed.

Lemma for_iter_undefined c slot i0 n : forall i p w,
  0 <= i <= i0 -> i0 < i + Z.of_nat n -> i + Z.of_nat n <= MAX_DETECTIONS ->
  i0 < num_of c ->
  (forall k, 0 <= k < i0 -> k < size (class_ids c) /\ k < size (confs c)) ->
  size (class_ids c) <= i0 \/ size (confs c) <= i0 ->
  0 <= slot -> slot + SLOT_SIZE <= SHM_SIZE ->
  p = slot + HEADER_SIZE + DET_RECORD_SIZE * i ->
  for_iter n i (write_detection (class_ids c) (confs c) (boxes c) (num_of c)) p w
  = Undefined.
Proof.
  induction n as [|n IH]; intros i p w Hi Hn Hmax Hnum Hbelow Hshort Hs0 Hs1 Hp.
  - lia.
  - cbn [for_iter].
    destruct (Z.eq_dec i i0) as [->|Hne].
    + unfold bind at 1.
      rewrite (write_detection_undefined c slot i0 p w) by (assumption || lia).
      reflexivity.
    + apply undefined_bind.
      eapply exec_conseq.
      { apply (write_detection_returns c slot i p w); try assumption; try lia.
        intros _. apply Hbelow. lia. }
      intros p' w' ->. cbv beta.
      apply IH; try assumption; consts; lia.
Qed.

(** X6.  [write_frame] takes the number of detections from [boxes] and
    never looks at the sizes of the other two vectors: when [class_ids] or
    [confs] has fewer elements than the number of records to store, the
    call subscripts a vector out of range. *)
Theorem short_vector_is_undefined (c : call) (w : world) :
  ready w ->
  size (class_ids c) < num_of c \/ size (confs c) < num_of c ->
  enqueue c w = Undefined.
Proof.
  intros (Hsem & Hmut & Hidx) Hshort.
  destruct (slot_in_view _ Hidx) as [Hs0 Hs1].
  pose proof (clamp_num_le_max (boxes c)) as Hmax. fold (num_of c) in Hmax.
  assert (H0c : 0 <= size (class_ids c)) by (unfold size; lia).
  assert (H0f : 0 <= size (confs c)) by (unfold size; lia).
  unfold enqueue, write_frame.
  apply undefined_bind. apply exec_wait_semEmpty; [assumption|]. world_simpl.
  apply undefined_bind. apply exec_wait_mutex; [assumption|]. world_simpl.
  apply undefined_bind. apply exec_load_int; [consts; lia | consts; lia |].
  world_simpl.
  change (int_of_bytes (shm w (0 * sizeof_int)) (shm w (0 * sizeof_int + 1))
            (shm w (0 * sizeof_int + 2)) (shm w (0 * sizeof_int + 3)))
    with (write_index w).
  set (slot := slot_offset (write_index w)) in *.
  apply undefined_bind. apply exec_memcpy; [consts; lia | consts; lia | world_simpl].
  apply undefined_bind. apply exec_memcpy; [consts; lia | consts; lia | world_simpl].
  apply undefined_bind. apply exec_memcpy; [consts; lia | consts; lia | world_simpl].
  apply undefined_bind. apply exec_memcpy; [consts; lia | consts; lia | world_simpl].
  apply undefined_bind. apply exec_memcpy; [consts; lia | consts; lia | world_simpl].
  unfold bind at 1. unfold for_loop.
  rewrite (for_iter_undefined c slot (Z.min (size (class_ids c)) (size (confs c))));
    try reflexivity; try assumption; try lia.
  consts. lia.
Qed.

(** * The rest of [main] *)

(** ** Class names *)

Lemma take_line_spec : forall stream line rest,
  take_line stream = (line, rest) ->
  ~ In newline line /\
  (stream = line ++ newline :: rest \/
   (stream = line /\ rest = [])).
Proof.
  induction stream as [|ch s IH]; intros line rest E; cbn [take_line] in E.
  - injection E as <- <-. split; [intros []|]. right. split; reflexivity.
  - destruct (Ascii.eqb ch newline) eqn:Ech.
    + apply Ascii.eqb_eq in Ech. subst ch.
      injection E as <- <-. split; [intros []|]. left. reflexivity.
    + apply Ascii.eqb_neq in Ech.
      destruct (take_line s) as [l r] eqn:El.
      injection E as <- <-.
      destruct (IH l r eq_refl) as [Hno Hcase].
      split.
      * intros [Hh|Ht]; [apply Ech; exact Hh | apply Hno; exact Ht].
      * destruct Hcase as [->|[-> ->]].
        -- left. reflexivity.
        -- right. split; reflexivity.
Qed.

Lemma last_after_newline (l r : list ascii) :
  last (l ++ newline :: r) newline = last r newline.
Proof.
  induction l as [|a l IH].
  - destruct r; reflexivity.
  - cbn [app]. rewrite <- IH.
    destruct (l ++ newline :: r) eqn:E; [|reflexivity].
    destruct l; discriminate E.
Qed.

Lemma last_no_newline (l : list ascii) :
  l <> [] -> ~ In newline l -> last l newline <> newline.
Proof.
  induction l as [|a l IH]; intros Hne Hno; [contradiction|].
  destruct l as [|b l].
  - cbn. intros E. apply Hno. left. exact E.
  - change (last (a :: b :: l) newline) with (last (b :: l) newline).
    apply IH; [discriminate|]. intros H. apply Hno. right. exact H.
Qed.

Lemma getline_loop_spec fuel : forall stream classes,
  (length stream < fuel)%nat ->
  exists ls,
    getline_loop fuel stream classes = classes ++ ls /\
    unlines ls = stream ++ (if Ascii.eqb (last stream newline) newline
                            then [] else [newline]) /\
    Forall (fun l => ~ In newline l) ls /\
    (ls = [] <-> stream = []).
Proof.
  induction fuel as [|fuel IH]; intros stream classes Hlen; [lia|].
  cbn [getline_loop]. destruct stream as [|ch s].
  - exists []. cbn [getline]. rewrite app_nil_r.
    split; [reflexivity|]. split; [reflexivity|]. split; [constructor|].
    split; reflexivity.
  - cbn [getline]. destruct (take_line (ch :: s)) as [line rest] eqn:E.
    destruct (take_line_spec _ _ _ E) as [Hno Hcase].
    assert (Hshort : (length rest < fuel)%nat).
    { destruct Hcase as [Hs|[_ ->]].
      - apply (f_equal (@length ascii)) in Hs.
        rewrite length_app in Hs. cbn [length] in *. lia.
      - cbn [length] in *. lia. }
    destruct (IH rest (classes ++ [line]) Hshort) as (ls & Els & Hjoin & Hall & Hnil).
    exists (line :: ls). rewrite Els, <- app_assoc.
    split; [reflexivity|]. split; [|split].
    + unfold unlines in *. cbn [flat_map].
      destruct Hcase as [Hs|[Hs Hr]].
      * rewrite Hjoin, Hs, last_after_newline, <- !app_assoc. reflexivity.
      * subst rest. assert (Hls : ls = []) by (apply Hnil; reflexivity).
        subst ls. cbn [flat_map]. rewrite app_nil_r, Hs.
        replace (Ascii.eqb (last line newline) newline) with false; [reflexivity|].
        symmetry. apply Ascii.eqb_neq. apply last_no_newline; [|exact Hno].
        rewrite <- Hs. discriminate.
    + constructor; assumption.
    + split; intros H; discriminate H.
Qed.

(** X8.  [load_classes] returns the lines of the file: none of them
    contains a newline, and put back together, each followed by a newline,
    they give the content of the file, with a final newline added when the
    file does not end in one.  So no character is lost, an empty line is
    kept as an empty name, and a trailing newline does not make an extra
    name. *)
Theorem load_classes_round_trip (content : list ascii) :
  unlines (load_classes (Some content))
  = content ++ (if Ascii.eqb (last content newline) newline
                then [] else [newline]) /\
  Forall (fun l => ~ In newline l) (load_classes (Some content)).
Proof.
  unfold load_classes.
  destruct (getline_loop_spec (S (length content)) content [])
    as (ls & E & Hjoin & Hall & _); [lia|].
  rewrite E. cbn [app]. split; assumption.
Qed.

(** X9.  [load_classes] gives no name exactly when the file cannot be
    opened or has no character in it; [main] then returns -1 without
    having created or touched the shared region, as it does when the
    mapping cannot be created, and in no other case. *)
Theorem no_class_names_stops_main (file : option (list ascii)) (s : system) :
  (load_classes file = [] <-> file = None \/ file = Some []) /\
  (main_until_init file s = None <->
   file = None \/ file = Some [] \/ s = CannotMap).
Proof.
  assert (Hempty : load_classes file = [] <-> file = None \/ file = Some []).
  { destruct file as [content|].
    - unfold load_classes.
      destruct (getline_loop_spec (S (length content)) content [])
        as (ls & E & _ & _ & Hnil); [lia|].
      rewrite E. cbn [app]. split.
      + intros H. right. f_equal. apply Hnil. exact H.
      + intros [H|H]; [discriminate H|]. injection H as ->. apply Hnil. reflexivity.
    - split; [intros _; left; reflexivity | reflexivity]. }
  split; [exact Hempty|].
  unfold main_until_init. cbv zeta.
  destruct (load_classes file) as [|name names] eqn:E.
  - split; [intros _|reflexivity].
    destruct (proj1 Hempty eq_refl) as [H|H]; [left | right; left]; exact H.
  - assert (Hfile : ~ (file = None \/ file = Some [])).
    { intros H. apply Hempty in H. discriminate H. }
    split.
    + intros H. right. right.
      destruct s as [| |w]; [reflexivity | discriminate H | discriminate H].
    + intros [H|[H|H]].
      * exfalso. apply Hfile. left. exact H.
      * exfalso. apply Hfile. right. exact H.
      * subst s. reflexivity.
Qed.

(** ** The frame loop *)

(** X10.  A candidate box clipped to a video frame of at least one pixel
    each way starts inside the frame, is at least one pixel wide and high
    (even when the candidate had no or negative extent) and ends inside
    the frame; a box that already satisfies this is left as it is. *)
Theorem clip_to_frame_inside (frame_width frame_height l t wd ht : Z) :
  1 <= frame_width <= INT_MAX ->
  1 <= frame_height <= INT_MAX ->
  let b := clip_to_frame frame_width frame_height l t wd ht in
  (0 <= x b < frame_width /\ 0 <= y b < frame_height /\
   1 <= width b /\ 1 <= height b /\
   x b + width b <= frame_width /\
   y b + height b <= frame_height) /\
  (0 <= l -> 1 <= wd -> l + wd <= frame_width ->
   0 <= t -> 1 <= ht -> t + ht <= frame_height ->
   b = mkRect l t wd ht).
Proof.
  intros Hw Hh. unfold clip_to_frame. cbv zeta.
  rewrite (wrap32_id (frame_width - 1)) by (consts; lia).
  rewrite (wrap32_id (frame_height - 1)) by (consts; lia).
  rewrite (wrap32_id (frame_width - _)) by (consts; lia).
  rewrite (wrap32_id (frame_height - _)) by (consts; lia).
  cbn [x y width height]. split.
  - lia.
  - intros. f_equal; lia.
Qed.

Lemma scale_box_inside_image (to_int_x to_int_y : Z -> Z) (box : Rect) :
  inside_image (scale_box to_int_x to_int_y box).
Proof.
  unfold inside_image, scale_box. cbv zeta. cbn [x y width height].
  consts. lia.
Qed.

(** X11.  Whatever the scaling yields, a box sent to the consumer lies
    inside the 640x640 image and is at least one pixel wide and high. *)
Theorem scale_box_inside (to_int_x to_int_y : Z -> Z) (box : Rect) :
  0 <= x (scale_box to_int_x to_int_y box) /\
  0 <= y (scale_box to_int_x to_int_y box) /\
  1 <= width (scale_box to_int_x to_int_y box) /\
  1 <= height (scale_box to_int_x to_int_y box) /\
  x (scale_box to_int_x to_int_y box) + width (scale_box to_int_x to_int_y box)
    <= INPUT_WIDTH /\
  y (scale_box to_int_x to_int_y box) + height (scale_box to_int_x to_int_y box)
    <= INPUT_HEIGHT.
Proof.
  unfold scale_box. cbv zeta. cbn [x y width height].
  unfold INPUT_WIDTH, INPUT_HEIGHT.
  repeat split; lia.
Qed.

Lemma subscript_in {A} (v : list A) i d :
  0 <= i < size v -> subscript v i = Some (nth (Z.to_nat i) v d).
Proof.
  intros H. unfold subscript, size in *.
  replace (0 <=? i) with true by (symmetry; apply Z.leb_le; lia).
  apply nth_error_nth'. lia.
Qed.

Lemma keep_indices_spec r : forall todo fc ff fb,
  length (all_class_ids r) = length (all_boxes r) ->
  length (confidences r) = length (all_boxes r) ->
  Forall (fun i => 0 <= i < size (all_boxes r)) todo ->
  keep_indices r todo (fc, ff, fb)
  = Some (fc ++ map (fun i => nth (Z.to_nat i) (all_class_ids r) 0) todo,
          ff ++ map (fun i => nth (Z.to_nat i) (confidences r) 0) todo,
          fb ++ map (fun i => nth (Z.to_nat i) (all_boxes r) (mkRect 0 0 0 0)) todo).
Proof.
  induction todo as [|i rest IH]; intros fc ff fb Hc Hf Hall.
  - cbn [keep_indices map]. rewrite !app_nil_r. reflexivity.
  - inversion Hall as [|i' rest' Hi Hrest]; subst i' rest'.
    cbn [keep_indices map].
    rewrite (subscript_in (all_class_ids r) i 0) by (unfold size in *; lia).
    rewrite (subscript_in (confidences r) i 0) by (unfold size in *; lia).
    rewrite (subscript_in (all_boxes r) i (mkRect 0 0 0 0)) by assumption.
    rewrite IH by assumption. rewrite <- !app_assoc. reflexivity.
Qed.

Lemma scale_boxes_map to_int_x to_int_y : forall bs acc,
  scale_boxes to_int_x to_int_y bs acc
  = acc ++ map (scale_box to_int_x to_int_y) bs.
Proof.
  induction bs as [|b bs IH]; intros acc; cbn [scale_boxes map].
  - symmetry. apply app_nil_r.
  - rewrite IH, <- app_assoc. reflexivity.
Qed.

Lemma send_frame_enqueue to_int_x to_int_y id r w :
  valid_result r ->
  send_frame to_int_x to_int_y id r w
  = enqueue (sent_call to_int_x to_int_y id r) w.
Proof.
  intros (Hc & Hf & Hall). unfold send_frame.
  rewrite (keep_indices_spec r (indices r) [] [] [] Hc Hf Hall).
  cbn [app]. rewrite scale_boxes_map. cbn [app]. rewrite map_map.
  reflexivity.
Qed.

Lemma sent_call_parallel to_int_x to_int_y id r :
  parallel (sent_call to_int_x to_int_y id r).
Proof.
  unfold parallel, sent_call. cbn [class_ids confs boxes].
  rewrite !length_map. split; reflexivity.
Qed.

(** X12.  When the candidate vectors are parallel and the suppression
    returns indices of candidates, the call [main] makes is
    [write_frame] on three vectors of the length of [indices], entry [k]
    of each coming from candidate [indices[k]], with every box inside the
    image; such a call cannot leave defined behaviour, and it returns
    whenever a slot is free. *)
Theorem main_calls_write_frame_safely
    (to_int_x to_int_y : Z -> Z) (id : Z) (r : frame_result) :
  valid_result r ->
  let c := sent_call to_int_x to_int_y id r in
  (forall w, send_frame to_int_x to_int_y id r w = enqueue c w) /\
  length (class_ids c) = length (indices r) /\
  length (confs c) = length (indices r) /\
  length (boxes c) = length (indices r) /\
  Forall inside_image (boxes c) /\
  (forall w, ready w ->
     exists w', send_frame to_int_x to_int_y id r w = Ok tt w').
Proof.
  intros Hv c.
  split; [intros w; apply send_frame_enqueue; exact Hv|].
  unfold c, sent_call. cbn [class_ids confs boxes]. rewrite !length_map.
  split; [reflexivity|]. split; [reflexivity|]. split; [reflexivity|].
  split.
  - apply Forall_forall. intros b Hb. apply in_map_iff in Hb.
    destruct Hb as (i & <- & _). apply scale_box_inside_image.
  - intros w Hr. rewrite (send_frame_enqueue _ _ _ _ _ Hv).
    destruct (enqueue_Ok (sent_call to_int_x to_int_y id r) w Hr
                (sent_call_parallel _ _ _ _)) as (w' & E & _).
    exists w'. exact E.
Qed.

Lemma video_loop_enqueue_all to_int_x to_int_y frames : forall id w,
  0 <= id -> id + size frames <= INT_MAX ->
  Forall valid_result frames ->
  video_loop to_int_x to_int_y frames id w
  = bind (enqueue_all (sent_calls to_int_x to_int_y frames id))
         (fun _ => ret (id + size frames)) w.
Proof.
  induction frames as [|r rest IH]; intros id w Hid Hmax Hv.
  - cbn [video_loop sent_calls enqueue_all]. unfold bind, ret.
    change (size (@nil frame_result)) with 0. rewrite Z.add_0_r. reflexivity.
  - rewrite size_cons in Hmax.
    assert (0 <= size rest) by (unfold size; lia).
    inversion Hv as [|r' rest' Hr Hrest]; subst r' rest'.
    cbn [video_loop sent_calls enqueue_all]. cbv zeta.
    rewrite (wrap32_id (id + 1)) by (consts; lia).
    unfold bind at 1 2 3.
    rewrite (send_frame_enqueue _ _ _ _ _ Hr).
    destruct (enqueue (sent_call to_int_x to_int_y (id + 1) r) w)
      as [[] w1| |]; try reflexivity.
    rewrite IH by (assumption || lia).
    unfold bind. rewrite size_cons.
    replace (id + 1 + size rest) with (id + (1 + size rest)) by lia.
    reflexivity.
Qed.

Lemma sent_calls_length to_int_x to_int_y frames : forall id,
  size (sent_calls to_int_x to_int_y frames id) = size frames.
Proof.
  induction frames as [|r rest IH]; intros id; [reflexivity|].
  cbn [sent_calls]. rewrite !size_cons, IH. reflexivity.
Qed.

Lemma sent_calls_nth to_int_x to_int_y frames : forall id i r,
  nth_error frames i = Some r ->
  nth_error (sent_calls to_int_x to_int_y frames id) i
  = Some (sent_call to_int_x to_int_y (id + Z.of_nat i + 1) r).
Proof.
  induction frames as [|r0 rest IH]; intros id i r E.
  - destruct i; discriminate E.
  - destruct i as [|i]; cbn [sent_calls nth_error] in *.
    + injection E as ->. do 2 f_equal. lia.
    + rewrite (IH (id + 1) i r E). do 2 f_equal. lia.
Qed.

Lemma sent_calls_parallel to_int_x to_int_y frames : forall id,
  Forall parallel (sent_calls to_int_x to_int_y frames id).
Proof.
  induction frames as [|r rest IH]; intros id; cbn [sent_calls].
  - constructor.
  - constructor; [apply sent_call_parallel | apply IH].
Qed.

(** X13.  Started on the initialised queue, the frame loop of [main]
    numbers the frames from 1: with at most [QUEUE_SIZE] frames it runs to
    the end, returns the number of frames, and slot [i] holds the call
    made for frame [i] under the frame id [i + 1]. *)
Theorem video_loop_numbers_frames_from_one
    (to_int_x to_int_y : Z -> Z) (frames : list frame_result) (w : world) :
  initialised w ->
  size frames <= QUEUE_SIZE ->
  Forall valid_result frames ->
  exists w',
    video_loop to_int_x to_int_y frames 0 w = Ok (size frames) w' /\
    write_index w' = size frames mod QUEUE_SIZE /\
    (forall i r, nth_error frames i = Some r ->
       slot_holds (sent_call to_int_x to_int_y (Z.of_nat i + 1) r)
         (shm w') (slot_offset (Z.of_nat i)) /\
       load_bytes (shm w') (slot_offset (Z.of_nat i)) 4
       = encode_int (Z.of_nat i + 1)).
Proof.
  intros Hinit Hn Hv.
  assert (H0 : 0 <= size frames) by (unfold size; lia).
  rewrite video_loop_enqueue_all by (assumption || consts; lia).
  destruct (enqueue_all_from_start (sent_calls to_int_x to_int_y frames 0) w Hinit)
    as (w' & E & H).
  { rewrite sent_calls_length. exact Hn. }
  { apply sent_calls_parallel. }
  unfold bind. rewrite E. unfold ret. rewrite Z.add_0_l.
  exists w'. split; [reflexivity|]. split.
  - rewrite (ea_write_index _ _ _ _ H), sent_calls_length, Z.add_0_l. reflexivity.
  - intros i r Hi.
    pose proof (ea_slots _ _ _ _ H i _ (sent_calls_nth _ _ _ 0 i r Hi)) as Hs.
    rewrite !Z.add_0_l in Hs. split; [exact Hs|].
    rewrite <- (Z.add_0_r (slot_offset (Z.of_nat i))).
    change (slot_offset (Z.of_nat i) + 0) with (slot_offset (Z.of_nat i) + 4 * 0).
    rewrite (slot_header_word _ _ _ 0 Hs) by lia.
    reflexivity.
Qed.

(** X14.  With nobody to drain the queue, the frame loop does not get
    past frame [QUEUE_SIZE + 1]: on a video with more frames than there
    are empty slots it blocks instead of overwriting a slot. *)
Theorem video_loop_blocks_without_consumer
    (to_int_x to_int_y : Z -> Z) (frames : list frame_result) (w : world) :
  0 <= write_index w < QUEUE_SIZE ->
  mutex w = Unowned ->
  0 <= semEmpty w < size frames ->
  size frames <= INT_MAX ->
  Forall valid_result frames ->
  video_loop to_int_x to_int_y frames 0 w = Blocked.
Proof.
  intros Hi Hm Hs Hmax Hv.
  rewrite video_loop_enqueue_all by (assumption || lia).
  unfold bind.
  rewrite enqueue_all_blocks_when_full_aux; try assumption.
  - reflexivity.
  - rewrite sent_calls_length. exact Hs.
  - apply sent_calls_parallel.
Qed.

(** * The further properties at concrete inputs *)

(** A class file with an empty line and no final newline. *)
Example load_classes_lines :
  load_classes (Some ["a"; "b"; newline; newline; "c"]%char)
  = [["a"; "b"]; []; ["c"]]%char /\
  load_classes (Some ["a"; newline]%char) = [["a"]]%char /\
  load_classes (Some [newline]) = [[]].
Proof. repeat split. Qed.

Lemma write_index_late_world : 0 <= write_index late_world < QUEUE_SIZE.
Proof. vm_compute. split; [intros H; discriminate H | reflexivity]. Defined.

Lemma enqueue_all_wraps_around_witness :
  0 <= write_index late_world < QUEUE_SIZE /\
  mutex late_world = Unowned /\
  size three_calls <= semEmpty late_world /\
  size three_calls <= QUEUE_SIZE /\
  Forall well_formed three_calls /\
  exists w',
    enqueue_all three_calls late_world = Ok tt w' /\
    write_index w' = 2 /\
    total_written w' = 12 /\
    load_bytes (shm w') (slot_offset 0) 4820
      = encode_header 2 200 ++ encode_detections crowded_call.
Proof.
  assert (Hs : size three_calls <= semEmpty late_world)
    by (vm_compute; intros H; discriminate H).
  assert (Hn : size three_calls <= QUEUE_SIZE)
    by (vm_compute; intros H; discriminate H).
  destruct (enqueue_all_wraps_around three_calls late_world
              write_index_late_world eq_refl Hs Hn well_formed_three_calls)
    as (w' & E & Hi & Ht & _ & Hslots).
  split; [exact write_index_late_world|]. split; [reflexivity|].
  split; [exact Hs|]. split; [exact Hn|].
  split; [exact well_formed_three_calls|].
  exists w'. split; [exact E|]. split; [exact Hi|]. split; [exact Ht|].
  exact (Hslots 1%nat crowded_call eq_refl).
Defined.

Lemma parallel_six_calls : Forall parallel six_calls.
Proof.
  unfold six_calls, three_calls. cbn [app].
  repeat (apply Forall_cons;
          [first [exact parallel_scenario_call | exact parallel_crowded_call
                 | exact parallel_small_image_call]|]).
  apply Forall_nil.
Defined.

Lemma write_index_fresh_world : 0 <= write_index fresh_world < QUEUE_SIZE.
Proof. vm_compute. split; [intros H; discriminate H | reflexivity]. Defined.

Lemma enqueue_all_blocks_when_full_witness :
  0 <= write_index fresh_world < QUEUE_SIZE /\
  mutex fresh_world = Unowned /\
  0 <= semEmpty fresh_world <= QUEUE_SIZE /\
  semEmpty fresh_world < size six_calls /\
  Forall parallel six_calls /\
  enqueue_all six_calls fresh_world = Blocked.
Proof.
  assert (He : 0 <= semEmpty fresh_world <= QUEUE_SIZE)
    by (vm_compute; split; intros H; discriminate H).
  assert (Hs : semEmpty fresh_world < size six_calls) by reflexivity.
  split; [exact write_index_fresh_world|]. split; [reflexivity|].
  split; [exact He|]. split; [exact Hs|]. split; [exact parallel_six_calls|].
  exact (proj2 (enqueue_all_blocks_when_full six_calls fresh_world
                  write_index_fresh_world eq_refl He Hs parallel_six_calls)).
Defined.

Lemma queue_inv_fresh_world : queue_inv fresh_world.
Proof.
  split; [exact write_index_fresh_world|]. split; [reflexivity|].
  vm_compute. repeat split; intros H; discriminate H.
Defined.

Lemma queue_invariant_kept_witness :
  queue_inv fresh_world /\ 0 < semEmpty fresh_world /\ parallel scenario_call /\
  exists w',
    enqueue scenario_call fresh_world = Ok tt w' /\
    queue_inv w' /\ semEmpty w' = 4 /\ semFull w' = 1.
Proof.
  destruct queue_invariant_kept as (_ & Hkeep).
  destruct (Hkeep scenario_call fresh_world queue_inv_fresh_world eq_refl
              parallel_scenario_call) as (w' & E & Hinv & He & Hf).
  split; [exact queue_inv_fresh_world|]. split; [reflexivity|].
  split; [exact parallel_scenario_call|].
  exists w'. split; [exact E|]. split; [exact Hinv|]. split; [exact He | exact Hf].
Defined.

Lemma ready_stale_world : ready stale_world.
Proof.
  split; [reflexivity|]. split; [reflexivity|].
  vm_compute. split; [intros H; discriminate H | reflexivity].
Defined.

Lemma slot_fully_overwritten_witness :
  ready fresh_world /\ ready stale_world /\ parallel scenario_call /\
  write_index fresh_world = write_index stale_world /\
  shm fresh_world 5000 <> shm stale_world 5000 /\
  exists w1' w2',
    enqueue scenario_call fresh_world = Ok tt w1' /\
    enqueue scenario_call stale_world = Ok tt w2' /\
    shm w1' 5000 = shm w2' 5000.
Proof.
  destruct (slot_fully_overwritten scenario_call fresh_world stale_world
              ready_fresh_world ready_stale_world parallel_scenario_call eq_refl)
    as (w1' & w2' & E1 & E2 & Hsame).
  split; [exact ready_fresh_world|]. split; [exact ready_stale_world|].
  split; [exact parallel_scenario_call|]. split; [reflexivity|].
  split; [vm_compute; intros H; discriminate H|].
  exists w1', w2'. split; [exact E1|]. split; [exact E2|].
  clear E1 E2. apply (Hsame 4988).
  vm_compute. split; [intros H; discriminate H | reflexivity].
Defined.

Lemma image_copied_verbatim_witness :
  ready fresh_world /\ parallel scenario_call /\
  total (frame640 scenario_call) * elemSize (frame640 scenario_call)
    = INPUT_WIDTH * INPUT_HEIGHT * CHANNELS /\
  exists w',
    enqueue scenario_call fresh_world = Ok tt w' /\
    shm w' (12 + 20 + 4800 + 7) = 114.
Proof.
  destruct (image_copied_verbatim scenario_call fresh_world
              ready_fresh_world parallel_scenario_call eq_refl)
    as (w' & t & E & Himg & _).
  split; [exact ready_fresh_world|]. split; [exact parallel_scenario_call|].
  split; [reflexivity|].
  exists w'. split; [exact E|].
  clear E. apply (Himg 7).
  vm_compute. split; [intros H; discriminate H | reflexivity].
Defined.

Lemma short_vector_is_undefined_witness :
  ready fresh_world /\
  (size (class_ids ragged_call) < num_of ragged_call \/
   size (confs ragged_call) < num_of ragged_call) /\
  enqueue ragged_call fresh_world = Undefined.
Proof.
  assert (Hshort : size (class_ids ragged_call) < num_of ragged_call \/
                   size (confs ragged_call) < num_of ragged_call)
    by (left; reflexivity).
  split; [exact ready_fresh_world|]. split; [exact Hshort|].
  exact (short_vector_is_undefined ragged_call fresh_world
           ready_fresh_world Hshort).
Defined.

Lemma corrupt_write_index_is_undefined_witness :
  0 < semEmpty corrupt_world /\ mutex corrupt_world = Unowned /\
  ~ (0 <= write_index corrupt_world < QUEUE_SIZE) /\
  enqueue scenario_call corrupt_world = Undefined.
Proof.
  assert (Hbad : ~ (0 <= write_index corrupt_world < QUEUE_SIZE))
    by (vm_compute; intros [_ H]; discriminate H).
  split; [reflexivity|]. split; [reflexivity|]. split; [exact Hbad|].
  exact (corrupt_write_index_is_undefined scenario_call corrupt_world
           eq_refl eq_refl Hbad).
Defined.

Lemma clip_to_frame_inside_witness :
  1 <= 1920 <= INT_MAX /\ 1 <= 1080 <= INT_MAX /\
  clip_to_frame 1920 1080 (-5) 1070 300 50 = mkRect 0 1070 300 10 /\
  x (clip_to_frame 1920 1080 (-5) 1070 300 50)
    + width (clip_to_frame 1920 1080 (-5) 1070 300 50) <= 1920.
Proof.
  assert (Hw : 1 <= 1920 <= INT_MAX)
    by (vm_compute; split; intros H; discriminate H).
  assert (Hh : 1 <= 1080 <= INT_MAX)
    by (vm_compute; split; intros H; discriminate H).
  destruct (clip_to_frame_inside 1920 1080 (-5) 1070 300 50 Hw Hh)
    as ((_ & _ & _ & _ & Hx & _) & _).
  split; [exact Hw|]. split; [exact Hh|]. split; [reflexivity | exact Hx].
Defined.

Lemma valid_street_result : valid_result street_result.
Proof.
  split; [reflexivity|]. split; [reflexivity|].
  apply Forall_cons;
    [vm_compute; split; [intros H; discriminate H | reflexivity]|].
  apply Forall_cons;
    [vm_compute; split; [intros H; discriminate H | reflexivity]|].
  apply Forall_nil.
Defined.

Lemma main_calls_write_frame_safely_witness :
  valid_result street_result /\
  boxes (sent_call third sixteen_27th 1 street_result)
    = [mkRect 600 533 40 106; mkRect 100 88 200 177] /\
  exists w', send_frame third sixteen_27th 1 street_result fresh_world = Ok tt w'.
Proof.
  destruct (main_calls_write_frame_safely third sixteen_27th 1 street_result
              valid_street_result) as (_ & _ & _ & _ & _ & Hret).
  split; [exact valid_street_result|]. split; [reflexivity|].
  exact (Hret fresh_world ready_fresh_world).
Defined.

Lemma valid_six_frames : Forall valid_result six_frames.
Proof.
  unfold six_frames.
  repeat (apply Forall_cons; [exact valid_street_result|]).
  apply Forall_nil.
Defined.

Lemma video_loop_numbers_frames_from_one_witness :
  initialised fresh_world /\
  size [street_result; street_result] <= QUEUE_SIZE /\
  Forall valid_result [street_result; street_result] /\
  exists w',
    video_loop third sixteen_27th [street_result; street_result] 0 fresh_world
      = Ok 2 w' /\
    load_bytes (shm w') (slot_offset 1) 4 = encode_int 2.
Proof.
  assert (Hn : size [street_result; street_result] <= QUEUE_SIZE)
    by (vm_compute; intros H; discriminate H).
  assert (Hv : Forall valid_result [street_result; street_result]).
  { apply Forall_cons; [exact valid_street_result|].
    apply Forall_cons; [exact valid_street_result|]. apply Forall_nil. }
  destruct (video_loop_numbers_frames_from_one third sixteen_27th
              [street_result; street_result] fresh_world
              initialised_fresh_world Hn Hv) as (w' & E & _ & Hslots).
  split; [exact initialised_fresh_world|]. split; [exact Hn|].
  split; [exact Hv|].
  exists w'. split; [exact E|].
  exact (proj2 (Hslots 1%nat street_result eq_refl)).
Defined.

Lemma video_loop_blocks_without_consumer_witness :
  0 <= write_index fresh_world < QUEUE_SIZE /\
  mutex fresh_world = Unowned /\
  0 <= semEmpty fresh_world < size six_frames /\
  size six_frames <= INT_MAX /\
  Forall valid_result six_frames /\
  video_loop third sixteen_27th six_frames 0 fresh_world = Blocked.
Proof.
  assert (Hs : 0 <= semEmpty fresh_world < size six_frames)
    by (vm_compute; split; [intros H; discriminate H | reflexivity]).
  assert (Hm : size six_frames <= INT_MAX)
    by (vm_compute; intros H; discriminate H).
  split; [exact write_index_fresh_world|]. split; [reflexivity|].
  split; [exact Hs|]. split; [exact Hm|]. split; [exact valid_six_frames|].
  exact (video_loop_blocks_without_consumer third sixteen_27th six_frames
           fresh_world write_index_fresh_world eq_refl Hs Hm valid_six_frames).
Defined.
